(** * go-logger core: FlagSet, Worker and TextWriter

    A shallow embedding of [flag_set.go] and of the worker and the text
    writer of the vendored [go-logger] package, with the properties of the
    specification proved, or refuted on a concrete input, over it.

    Conventions of the embedding:
    - a Go [string] is a Rocq [string] (a sequence of bytes);
    - a Go [map[Flag]bool] is an [option (gmap string bool)]: [None] is the
      [nil] map, which reads like the empty map and panics when written to;
    - a pointer receiver that mutates its struct becomes a function from the
      struct to the mutated struct;
    - a call that may panic returns an [outcome]. *)

From Stdlib Require Import String Ascii List Bool Arith Lia.
From stdpp Require Import base option list gmap strings fin_maps pretty.

Local Open Scope string_scope.
Local Open Scope list_scope.

(** ** Panics *)

(** The value carried by a Go panic is an [interface{}]: [None] is the [nil]
    interface, [Some s] a value that [%v] prints as [s]. *)
Definition panic_value : Type := option string.

Inductive outcome (A : Type) : Type :=
  | Return (a : A)
  | Panics (r : panic_value).
Arguments Return {A} a.
Arguments Panics {A} r.

Global Instance outcome_ret : MRet outcome := λ A a, Return a.
Global Instance outcome_bind : MBind outcome := λ A B f m,
  match m with
  | Return a => f a
  | Panics r => Panics r
  end.

(** A run-time error raised by the Go runtime (never the nil interface). *)
Definition runtime_error {A} (msg : string) : outcome A :=
  Panics (Some ("runtime error: " +:+ msg)).

(** ** The functions of package [strings] the source calls *)

Module strings.

(** [strings.ToLower] on a string whose bytes are all below 0x80 (the
    function's ASCII path): the letters 'A'..'Z' move to 'a'..'z', every
    other byte stays. On a string holding a byte from 0x80 on, Go decodes
    runes and lower-cases Unicode letters too; that path is outside this
    embedding, and the theorems about parsing take their strings in ASCII
    ([ascii_only]). *)
Definition lower_byte (c : ascii) : ascii :=
  let n := nat_of_ascii c in
  if ((65 <=? n) && (n <=? 90))%nat then ascii_of_nat (n + 32) else c.

Fixpoint ToLower (s : string) : string :=
  match s with
  | EmptyString => EmptyString
  | String c r => String (lower_byte c) (ToLower r)
  end.

(** [strings.Split(s, sep)] for a one-byte separator: the pieces between
    the separators, [[""]] for the empty string. *)
Fixpoint Split (s : string) (sep : ascii) : list string :=
  match s with
  | EmptyString => [EmptyString]
  | String c r =>
      if Ascii.eqb c sep then EmptyString :: Split r sep
      else match Split r sep with
           | piece :: pieces => String c piece :: pieces
           | [] => [String c EmptyString]
           end
  end.

Fixpoint contains_byte (cutset : string) (c : ascii) : bool :=
  match cutset with
  | EmptyString => false
  | String d r => Ascii.eqb c d || contains_byte r c
  end.

Fixpoint TrimLeft (s cutset : string) : string :=
  match s with
  | EmptyString => EmptyString
  | String c r => if contains_byte cutset c then TrimLeft r cutset else s
  end.

Fixpoint TrimRight (s cutset : string) : string :=
  match s with
  | EmptyString => EmptyString
  | String c r =>
      match TrimRight r cutset with
      | EmptyString =>
          if contains_byte cutset c then EmptyString
          else String c EmptyString
      | kept => String c kept
      end
  end.

(** [strings.Trim(s, cutset)] for a cutset of ASCII bytes: the leading
    and the trailing bytes of [s] that occur in [cutset] are dropped. *)
Definition Trim (s cutset : string) : string :=
  TrimRight (TrimLeft s cutset) cutset.

Fixpoint HasPrefix (s prefix : string) {struct prefix} : bool :=
  match prefix, s with
  | EmptyString, _ => true
  | String p prefix', String c s' => Ascii.eqb c p && HasPrefix s' prefix'
  | String _ _, EmptyString => false
  end.

Arguments HasPrefix s prefix : simpl nomatch.

Fixpoint drop_bytes (n : nat) (s : string) {struct n} : string :=
  match n, s with
  | O, _ => s
  | S n', String _ r => drop_bytes n' r
  | S _, EmptyString => EmptyString
  end.

Definition TrimPrefix (s prefix : string) : string :=
  if HasPrefix s prefix then drop_bytes (String.length prefix) s else s.

Fixpoint Join (elems : list string) (sep : string) : string :=
  match elems with
  | [] => EmptyString
  | [e] => e
  | e :: rest => e +:+ sep +:+ Join rest sep
  end.

End strings.

(** ** Flags *)

Abbreviation Flag := string (only parsing).

(** Modelled from the spec: the two reserved sentinel flags. Their
    declarations are not among the sources; the specification writes them
    as the tokens ["all"] and ["none"]. *)
Definition FlagAll : Flag := "all".
Definition FlagNone : Flag := "none".

(** ** Go maps from flags to booleans *)

Abbreviation flag_map := (option (gmap string bool)) (only parsing).

(** [v, ok := m[k]]: reading the nil map is reading the empty map. *)
Definition map_index (m : flag_map) (k : Flag) : option bool :=
  match m with
  | Some g => g !! k
  | None => None
  end.

(** [m[k] = v]: panics on the nil map. *)
Definition map_assign (m : flag_map) (k : Flag) (v : bool)
  : outcome (gmap string bool) :=
  match m with
  | Some g => Return (<[k:=v]> g)
  | None => runtime_error "assignment to entry in nil map"
  end.

(** The entries a [range] over the map visits; Go fixes no order, so the
    functions that depend on it take the order visited as an argument
    constrained by [range_order]. *)
Definition map_entries (m : flag_map) : list (Flag * bool) :=
  match m with
  | Some g => map_to_list g
  | None => []
  end.

Definition range_order (m : flag_map) (order : list (Flag * bool)) : Prop :=
  order ≡ₚ map_entries m.

(** ** FlagSet *)

Record FlagSet : Type := mkFlagSet {
  flags : flag_map;
  all : bool;
  none : bool
}.

(** [Enable]: the none bit is cleared first, then the entry is stored. *)
Definition Enable (efs : FlagSet) (flag : Flag) : outcome FlagSet :=
  m ← map_assign (flags efs) flag true;
  mret {| flags := Some m; all := all efs; none := false |}.

Definition Disable (efs : FlagSet) (flag : Flag) : outcome FlagSet :=
  m ← map_assign (flags efs) flag false;
  mret {| flags := Some m; all := all efs; none := none efs |}.

Definition SetAll (efs : FlagSet) : FlagSet :=
  {| flags := flags efs; all := true; none := false |}.

Definition SetNone (efs : FlagSet) : FlagSet :=
  {| flags := Some ∅; all := false; none := true |}.

Definition IsEnabled (efs : FlagSet) (flag : Flag) : bool :=
  if all efs then
    match map_index (flags efs) flag with
    | Some false => false
    | _ => true
    end
  else if none efs then false
  else
    match flags efs with
    | Some g =>
        match g !! flag with
        | Some enabled => enabled
        | None => false
        end
    | None => false
    end.

(** [NewFlagSet(flags...)]. *)
Fixpoint enable_each (efs : FlagSet) (fs : list Flag) : outcome FlagSet :=
  match fs with
  | [] => mret efs
  | flag :: rest => efs' ← Enable efs flag; enable_each efs' rest
  end.

Definition NewFlagSet (fs : list Flag) : outcome FlagSet :=
  enable_each {| flags := Some ∅; all := false; none := false |} fs.

Definition NewFlagSetAll : FlagSet :=
  {| flags := Some ∅; all := true; none := false |}.

Definition NewFlagSetNone : FlagSet :=
  {| flags := Some ∅; all := false; none := true |}.

(** The cutset [" \t\n"]: space, tab and newline. *)
Definition blanks : string :=
  String " " (String "009" (String "010" EmptyString)).

(** [Flag(strings.Trim(strings.ToLower(flag), " \t\n"))]. *)
Definition parsedFlag_of (flag : string) : Flag :=
  strings.Trim (strings.ToLower flag) blanks.

(** One turn of the loop of [NewFlagSetFromCSV]. *)
Definition parse_flag (flagSet : FlagSet) (flag : string) : outcome FlagSet :=
  let parsedFlag := parsedFlag_of flag in
  let flagSet :=
    if String.eqb parsedFlag FlagAll
    then {| flags := flags flagSet; all := true; none := none flagSet |}
    else flagSet in
  let flagSet :=
    if String.eqb parsedFlag FlagNone
    then {| flags := flags flagSet; all := all flagSet; none := true |}
    else flagSet in
  if strings.HasPrefix parsedFlag "-" then
    m ← map_assign (flags flagSet) (strings.TrimPrefix parsedFlag "-") false;
    mret {| flags := Some m; all := all flagSet; none := none flagSet |}
  else
    m ← map_assign (flags flagSet) parsedFlag true;
    mret {| flags := Some m; all := all flagSet; none := none flagSet |}.

Fixpoint parse_flags (flagSet : FlagSet) (tokens : list string)
  : outcome FlagSet :=
  match tokens with
  | [] => mret flagSet
  | flag :: rest => flagSet' ← parse_flag flagSet flag; parse_flags flagSet' rest
  end.

Definition NewFlagSetFromCSV (flagCSV : string) : outcome FlagSet :=
  parse_flags {| flags := Some ∅; all := false; none := false |}
              (strings.Split flagCSV ",").

(** The loop of [String]: [flags] grows by one token per entry visited. *)
Definition append_token (efs : FlagSet) (tokens : list string)
    (entry : Flag * bool) : list string :=
  let '(key, enabled) := entry in
  if bool_decide (key ≠ FlagAll) then
    if enabled then
      if negb (all efs) then tokens ++ [key] else tokens
    else tokens ++ ["-" +:+ key]
  else tokens.

Definition flag_tokens (efs : FlagSet) (order : list (Flag * bool))
  : list string :=
  fold_left (append_token efs) order (if all efs then [FlagAll] else []).

(** [efs.String()], the range over [efs.flags] visiting [order]. *)
Definition FlagSet_String (efs : FlagSet) (order : list (Flag * bool))
  : string :=
  if none efs then FlagNone
  else strings.Join (flag_tokens efs order) ", ".

(** The loop of [CoalesceWith]: every entry visited is stored. *)
Fixpoint assign_each (m : flag_map) (entries : list (Flag * bool))
  : outcome flag_map :=
  match entries with
  | [] => mret m
  | (key, value) :: rest =>
      g ← map_assign m key value; assign_each (Some g) rest
  end.

(** [efs.CoalesceWith(other)], the range over [other.flags] visiting
    [order]. *)
Definition CoalesceWith (efs other : FlagSet) (order : list (Flag * bool))
  : outcome FlagSet :=
  let efs :=
    if all other
    then {| flags := flags efs; all := true; none := none efs |} else efs in
  let efs :=
    if none other
    then {| flags := flags efs; all := all efs; none := true |} else efs in
  m ← assign_each (flags efs) order;
  mret {| flags := m; all := all efs; none := none efs |}.

(** ** Worker *)

(** The goroutine a listener call runs on. *)
Inductive thread : Type :=
  | LoopThread     (* the goroutine [Start] launches for [ProcessLoop] *)
  | CallerThread.  (* the goroutine that calls [Drain] *)

Global Instance thread_eq_dec : EqDecision thread.
Proof. solve_decision. Defined.

(** How a call ended: it returned, or it panicked with a value. *)
Inductive completion : Type :=
  | Returned
  | Panicked (r : panic_value).

(** Modelled from the spec: the parent error sink, of which the sources
    hold no declaration. The specification gives it one entry point, a
    synchronous fatal-severity report; the sink is modelled by the reports
    it has received. *)
Record Logger : Type := mkLogger {
  fatal_reports : list string
}.

(** Modelled from the spec: [parent.SyncFatalf(format, arg)] delivers one
    fatal-severity report and returns; the one format the worker uses is
    ["%v"], which prints the argument. *)
Definition SyncFatalf (parent : Logger) (format : string) (arg : string)
  : Logger :=
  {| fatal_reports := fatal_reports parent ++ [arg] |}.

(** [DefaultWorkerQueueDepth = 1 << 20], the capacity of the [Work]
    channel [NewWorker] makes. *)
Definition DefaultWorkerQueueDepth : Z := Z.shiftl 1 20.

Section Worker.

(** Events are opaque to a worker. [World] is whatever a listener acts
    upon; a listener does not touch the worker that runs it. *)
Context {Event World : Type}.

(** [type Listener func(Event)]: a call acts on the world, then returns
    or panics. *)
Definition Listener : Type := Event → World → World * completion.

(** The struct, without its two abort channels: they are unbuffered, so
    their state is the position of the goroutines that block on them. The
    [Work] channel is the list of the events queued, oldest first. *)
Record Worker : Type := mkWorker {
  Parent : option Logger;
  Listener_of : option Listener;   (* [None]: the nil func *)
  Work : list Event;
  IsRunning : bool
}.

(** A worker, the world of its listener, and the listener calls made so
    far, oldest first, each with the goroutine it ran on. *)
Record System : Type := mkSystem {
  worker : Worker;
  world : World;
  calls : list (thread * Event)
}.

Definition NewWorker (parent : option Logger) (listener : option Listener)
  : Worker :=
  {| Parent := parent; Listener_of := listener; Work := [];
     IsRunning := false |}.

(** [w.Listener(e)] on goroutine [th]. *)
Definition call_listener (th : thread) (e : Event) (s : System)
  : System * completion :=
  match Listener_of (worker s) with
  | Some listener =>
      let '(σ, c) := listener e (world s) in
      ({| worker := worker s; world := σ; calls := calls s ++ [(th, e)] |},
       c)
  | None =>
      (s, Panicked
            (Some "runtime error: invalid memory address or nil pointer dereference"))
  end.

(** [recover()] in a deferred function: the value of the panic under way,
    nil when there is none; the panic is over from then on. *)
Definition recover (c : completion) : panic_value :=
  match c with
  | Returned => None
  | Panicked r => r
  end.

(** The deferred function of [Process]. *)
Definition Process_deferred (c : completion) (s : System) : outcome System :=
  match recover c with
  | Some r =>
      match Parent (worker s) with
      | Some parent =>
          mret {| worker :=
                    {| Parent := Some (SyncFatalf parent "%v" r);
                       Listener_of := Listener_of (worker s);
                       Work := Work (worker s);
                       IsRunning := IsRunning (worker s) |};
                  world := world s; calls := calls s |}
      | None => mret s
      end
  | None => mret s
  end.

Definition Process (th : thread) (e : Event) (s : System) : outcome System :=
  let '(s', c) := call_listener th e s in
  Process_deferred c s'.

Definition set_Work (q : list Event) (s : System) : System :=
  {| worker := {| Parent := Parent (worker s);
                  Listener_of := Listener_of (worker s);
                  Work := q;
                  IsRunning := IsRunning (worker s) |};
     world := world s; calls := calls s |}.

Definition set_IsRunning (b : bool) (s : System) : System :=
  {| worker := {| Parent := Parent (worker s);
                  Listener_of := Listener_of (worker s);
                  Work := Work (worker s);
                  IsRunning := b |};
     world := world s; calls := calls s |}.

(** A producer's [w.Work <- e]: possible while the queue has room. *)
Definition enqueue (e : Event) (s : System) : option System :=
  if decide (Z.of_nat (length (Work (worker s))) < DefaultWorkerQueueDepth)%Z
  then Some (set_Work (Work (worker s) ++ [e]) s)
  else None.

(** Where the goroutine of [ProcessLoop] stands. [Start] only launches
    it: the running flag is set by the goroutine itself, in its first
    statement, so between the two there is a goroutine and no flag. The
    test of [for w.IsRunning] and the select are one point: the flag is
    written by this goroutine only. *)
Inductive loop_pc : Type :=
  | LoopAbsent     (* never started *)
  | LoopStarting   (* launched by [Start], before [w.IsRunning = true] *)
  | LoopSelecting  (* at the head of [for w.IsRunning { select ... }] *)
  | LoopProcessing (e : Event)
                   (* [e = <-w.Work] done, before [w.Process(e)] *)
  | LoopAborting   (* [<-w.Abort] done, before [w.IsRunning = false] *)
  | LoopAcking     (* blocked in [w.Aborted <- true] *)
  | LoopExited.

(** Where the goroutine that called [Drain] stands. *)
Inductive drain_pc : Type :=
  | DrainCalled      (* entering [Stop]: about to test [w.IsRunning] *)
  | StopSending      (* blocked in [w.Abort <- true] *)
  | StopReceiving    (* blocked in [<-w.Aborted] *)
  | Draining         (* [Stop] returned: at the test [len(w.Work) > 0] *)
  | DrainReceiving   (* the test held: in [<-w.Work] *)
  | DrainProcessing (e : Event)
                     (* [<-w.Work] done, before [w.Process(e)] *)
  | DrainReturned.

Record config : Type := mkConfig {
  sys : System;
  loop : loop_pc;
  caller : drain_pc
}.

(** One step of the loop goroutine, of the caller of [Drain], or of both
    at a rendezvous on an unbuffered channel; every read and write of the
    queue and of the running flag is a step of its own, and so is the call
    of [Process]. Producers do not run (the race of [Drain] against them
    is left open by the source) and nobody calls [Start] or [Close]
    meanwhile; a goroutine [Start] launched before the call may still be
    about to run its first statement ([LoopStarting]). While the caller is
    blocked in its send on [Abort] the select of the loop has both cases
    ready, and either may be taken. A receive from [Work] blocks while the
    queue is empty. The steps of the two goroutines interleave in any
    order, and a read of the flag or of the queue sees what was written
    last. *)
Inductive step : config → config → Prop :=
  (* ProcessLoop: [w.IsRunning = true], the first statement *)
  | loop_start s lc :
      step (mkConfig s LoopStarting lc)
           (mkConfig (set_IsRunning true s) LoopSelecting lc)
  (* ProcessLoop: [case e = <-w.Work:] *)
  | loop_receive s e q lc :
      IsRunning (worker s) = true →
      Work (worker s) = e :: q →
      step (mkConfig s LoopSelecting lc)
           (mkConfig (set_Work q s) (LoopProcessing e) lc)
  (* ProcessLoop: [w.Process(e)] *)
  | loop_process s s' e lc :
      Process LoopThread e s = Return s' →
      step (mkConfig s (LoopProcessing e) lc) (mkConfig s' LoopSelecting lc)
  (* ProcessLoop: the loop condition fails *)
  | loop_leave s lc :
      IsRunning (worker s) = false →
      step (mkConfig s LoopSelecting lc) (mkConfig s LoopExited lc)
  (* ProcessLoop [case <-w.Abort:] meets Stop [w.Abort <- true] *)
  | abort_rendezvous s :
      IsRunning (worker s) = true →
      step (mkConfig s LoopSelecting StopSending)
           (mkConfig s LoopAborting StopReceiving)
  (* ProcessLoop: [w.IsRunning = false] *)
  | loop_clear s lc :
      step (mkConfig s LoopAborting lc)
           (mkConfig (set_IsRunning false s) LoopAcking lc)
  (* ProcessLoop [w.Aborted <- true; return] meets Stop [<-w.Aborted] *)
  | aborted_rendezvous s :
      step (mkConfig s LoopAcking StopReceiving)
           (mkConfig s LoopExited Draining)
  (* Stop: [if !w.IsRunning { return }] *)
  | stop_not_running s lp :
      IsRunning (worker s) = false →
      step (mkConfig s lp DrainCalled) (mkConfig s lp Draining)
  | stop_running s lp :
      IsRunning (worker s) = true →
      step (mkConfig s lp DrainCalled) (mkConfig s lp StopSending)
  (* Drain: [for len(w.Work) > 0 {], the test holds *)
  | drain_more s lp :
      Work (worker s) ≠ [] →
      step (mkConfig s lp Draining) (mkConfig s lp DrainReceiving)
  (* Drain: [<-w.Work], the argument of the call *)
  | drain_receive s e q lp :
      Work (worker s) = e :: q →
      step (mkConfig s lp DrainReceiving)
           (mkConfig (set_Work q s) lp (DrainProcessing e))
  (* Drain: [w.Process(...)] *)
  | drain_process s s' e lp :
      Process CallerThread e s = Return s' →
      step (mkConfig s lp (DrainProcessing e)) (mkConfig s' lp Draining)
  (* Drain: the test fails *)
  | drain_done s lp :
      Work (worker s) = [] →
      step (mkConfig s lp Draining) (mkConfig s lp DrainReturned).

Definition steps : config → config → Prop := rtc step.

(** The calls of one goroutine to the listener, one per event. *)
Definition calls_by (th : thread) (events : list Event)
  : list (thread * Event) :=
  (λ e, (th, e)) <$> events.

(** The event a goroutine has received from [Work] and not yet passed to
    [Process]. *)
Definition loop_held (lp : loop_pc) : list Event :=
  match lp with
  | LoopProcessing e => [e]
  | _ => []
  end.

Definition caller_held (lc : drain_pc) : list Event :=
  match lc with
  | DrainProcessing e => [e]
  | _ => []
  end.

(** [Stop] has returned to the caller of [Drain]. *)
Definition stop_returned (pc : drain_pc) : bool :=
  match pc with
  | Draining | DrainReceiving | DrainProcessing _ | DrainReturned => true
  | DrainCalled | StopSending | StopReceiving => false
  end.

(** [w.Start()]: the go statement; the flag is left as it is. *)
Definition Start (c : config) : config :=
  mkConfig (sys c) LoopStarting (caller c).

(** A configuration in which [Drain] is being called outside the start-up
    window and outside another [Stop]: the loop goroutine is absent or gone
    with the running flag off, or in its loop (at the select or about to
    process an event) with the flag on. A call made after [Start] and
    before the goroutine has set the flag ([LoopStarting]) is not among
    them. *)
Definition Drain_called (c : config) : Prop :=
  caller c = DrainCalled ∧
  match loop c with
  | LoopSelecting | LoopProcessing _ => IsRunning (worker (sys c)) = true
  | LoopAbsent | LoopExited => IsRunning (worker (sys c)) = false
  | LoopStarting | LoopAborting | LoopAcking => False
  end.

(** The positions of the two goroutines and the values of the running flag
    that go together once [Drain] has been called outside the start-up
    window. *)
Definition pcs_ok (running : bool) (lp : loop_pc) (lc : drain_pc) : Prop :=
  match lc, lp with
  | (DrainCalled | StopSending), (LoopSelecting | LoopProcessing _) =>
      running = true
  | DrainCalled, (LoopAbsent | LoopExited) => running = false
  | StopReceiving, LoopAborting => running = true
  | StopReceiving, LoopAcking => running = false
  | (Draining | DrainReceiving | DrainProcessing _ | DrainReturned),
    (LoopAbsent | LoopExited) => running = false
  | _, _ => False
  end.

(** What holds from the call of [Drain] on, listener or not: the two
    goroutines and the flag go together, the caller waits in its receive
    only on a queue that has an event, and it has returned only from an
    empty queue. *)
Definition stop_inv (c : config) : Prop :=
  pcs_ok (IsRunning (worker (sys c))) (loop c) (caller c) ∧
  (caller c = DrainReceiving → Work (worker (sys c)) ≠ []) ∧
  (caller c = DrainReturned → Work (worker (sys c)) = []).

(** What holds of every configuration [c] reached from the call [c0] of
    [Drain] on a worker with a listener: the queue at the call is what the
    loop goroutine took, then what the caller took, then what is still
    queued; the listener has been called for the events taken, in that
    order, but for the one a goroutine still holds. *)
Definition drain_inv (c0 c : config) : Prop :=
  ∃ by_loop by_caller called : list Event,
    Work (worker (sys c0))
    = by_loop ++ by_caller ++ caller_held (caller c)
              ++ Work (worker (sys c)) ∧
    loop_held (loop c0) ++ by_loop = called ++ loop_held (loop c) ∧
    calls (sys c) = calls (sys c0) ++ calls_by LoopThread called
                                   ++ calls_by CallerThread by_caller ∧
    Listener_of (worker (sys c)) = Listener_of (worker (sys c0)) ∧
    (stop_returned (caller c) = false → by_caller = []) ∧
    (IsRunning (worker (sys c0)) = false →
     by_loop = [] ∧ IsRunning (worker (sys c)) = false).




End Worker.

Arguments Listener : clear implicits.
Arguments Worker : clear implicits.
Arguments System : clear implicits.
Arguments config : clear implicits.

(** ** Closing a worker *)

(** A field of channel type: nil, or a channel, open or closed, with the
    values buffered in it. *)
Inductive channel (A : Type) : Type :=
  | NilChan
  | OpenChan (buffered : list A)
  | ClosedChan (buffered : list A).
Arguments NilChan {A}.
Arguments OpenChan {A} buffered.
Arguments ClosedChan {A} buffered.

(** [close(ch)]: panics on the nil channel and on a closed one. *)
Definition close {A : Type} (ch : channel A) : outcome (channel A) :=
  match ch with
  | NilChan => Panics (Some "close of nil channel")
  | ClosedChan _ => Panics (Some "close of closed channel")
  | OpenChan buffered => Return (ClosedChan buffered)
  end.

(** [len(ch)]: the number of values buffered, 0 for the nil channel. *)
Definition chan_len {A : Type} (ch : channel A) : nat :=
  match ch with
  | NilChan => 0
  | OpenChan buffered | ClosedChan buffered => length buffered
  end.

(** The channel fields and the running flag of the struct. *)
Record WorkerChannels (Event : Type) : Type := mkWorkerChannels {
  ch_Abort : channel bool;
  ch_Aborted : channel bool;
  ch_Work : channel Event;
  ch_IsRunning : bool
}.
Arguments mkWorkerChannels {Event}.
Arguments ch_Abort {Event}.
Arguments ch_Aborted {Event}.
Arguments ch_Work {Event}.
Arguments ch_IsRunning {Event}.

(** The channels [NewWorker] makes. *)
Definition NewWorker_channels {Event : Type} : WorkerChannels Event :=
  {| ch_Abort := OpenChan []; ch_Aborted := OpenChan [];
     ch_Work := OpenChan []; ch_IsRunning := false |}.

(** [w.Close()] while the running flag is off, so that [w.Stop()] returns
    at once: the three channels are closed, then the three fields are set
    to nil; the error returned is always nil. When a [close] panics the
    fields are as they were. *)
Definition Close_stopped {Event : Type} (w : WorkerChannels Event)
  : outcome (WorkerChannels Event * option string) :=
  _ ← close (ch_Work w);
  _ ← close (ch_Abort w);
  _ ← close (ch_Aborted w);
  mret ({| ch_Abort := NilChan; ch_Aborted := NilChan; ch_Work := NilChan;
           ch_IsRunning := ch_IsRunning w |}, None).

(** ** Sample workers *)

(** A listener that panics with the value printed as ["boom"], and one
    that panics with the nil value ([panic(nil)]); events are numbers and
    the listeners act on nothing. *)
Definition boom_listener : Listener nat unit :=
  λ _ σ, (σ, Panicked (Some "boom")).

Definition nil_panic_listener : Listener nat unit :=
  λ _ σ, (σ, Panicked None).

Definition quiet_listener : Listener nat unit :=
  λ _ σ, (σ, Returned).

Definition sample_system (listener : Listener nat unit) (running : bool)
    (queue : list nat) : System nat unit :=
  {| worker := {| Parent := Some {| fatal_reports := [] |};
                  Listener_of := Some listener;
                  Work := queue;
                  IsRunning := running |};
     world := tt;
     calls := [] |}.

(** A worker as [NewWorker(parent, nil)] makes it. *)
Definition no_listener_system : System nat unit :=
  {| worker := NewWorker (Some {| fatal_reports := [] |}) None;
     world := tt; calls := [] |}.

(** [Drain] called on a running worker with one event queued, and the
    configuration in which it returns after the loop goroutine took the
    event before the abort signal. *)
Definition drain_running : config nat unit :=
  mkConfig (sample_system quiet_listener true [1]) LoopSelecting DrainCalled.

Definition drained_by_loop : config nat unit :=
  mkConfig {| worker := {| Parent := Some {| fatal_reports := [] |};
                           Listener_of := Some quiet_listener;
                           Work := [];
                           IsRunning := false |};
              world := tt;
              calls := [(LoopThread, 1)] |}
           LoopExited DrainReturned.


(** [Start] on that worker and [Drain] called at once, before the new
    goroutine has run its first statement; and the configuration in which
    [Drain] returns after both goroutines took an event and the caller
    was first to call the listener. *)
Definition drain_starting : config nat unit :=
  Start
    (mkConfig (sample_system quiet_listener false [1; 2]) LoopAbsent
              DrainCalled).


(** ** TextWriter *)

(** [type AnsiColor string]: the code of a colour; the empty string is no
    colour. *)
Abbreviation AnsiColor := string (only parsing).

(** Modelled from the spec: the separator after each column and the end of
    the line, [RuneSpace] and [RuneNewline], whose declarations are not
    among the sources; the specification gives the line as
    ["<T formatted> [ping] <body>\n"]. *)
Definition RuneSpace : ascii := " "%char.
Definition RuneNewline : ascii := "010"%char.

(** [time.RFC3339]. *)
Definition DefaultTextTimeFormat : string := "2006-01-02T15:04:05Z07:00".

(** [bytes.Buffer]: the bytes written and not yet read. *)
Abbreviation Buffer := string (only parsing).

Definition WriteString (buf : Buffer) (s : string) : Buffer := buf +:+ s.
Definition WriteRune (buf : Buffer) (r : ascii) : Buffer :=
  buf +:+ String r EmptyString.

(** An [io.Writer] behind the interlocked writer: the chunks handed to its
    [Write], one per call, and the error its calls end with, if any. *)
Record Sink : Type := mkSink {
  received : list string;
  failure : option string
}.

Definition Sink_Write (w : Sink) (p : string) : Sink * option string :=
  ({| received := received w ++ [p]; failure := failure w |}, failure w).

(** [buf.WriteTo(w)]: one [Write] of the whole content when there is any. *)
Definition WriteTo (buf : Buffer) (w : Sink) : Sink * option string :=
  match buf with
  | EmptyString => (w, None)
  | _ => Sink_Write w buf
  end.

(** Modelled from the spec: the buffer pool, a lease/release facility for
    scratch buffers whose implementation is not among the sources; a pool
    is modelled by the number of buffers out on lease, and a leased buffer
    comes empty. *)
Record BufferPool : Type := mkBufferPool {
  on_lease : nat
}.

Definition BufferPool_Get (pool : BufferPool) : Buffer * BufferPool :=
  (EmptyString, {| on_lease := S (on_lease pool) |}).

Definition BufferPool_Put (pool : BufferPool) (buf : Buffer) : BufferPool :=
  {| on_lease := pred (on_lease pool) |}.

(** [TextFormatter], the interface a custom renderer is handed. *)
Record TextFormatter : Type := mkTextFormatter {
  fmt_Colorize : string → AnsiColor → string;
  fmt_ColorizeStatusCode : Z → string;
  fmt_ColorizeByStatusCode : Z → string → string
}.

Section TextWriter.

(** What the writer takes from outside the sources: [time.Time] with its
    [Format] method, the clock, the colour catalogue ([AnsiColor.Apply],
    the two colours of the fixed columns, the colour of a flag) and the
    two package-level status-code colourings. *)
Context {Time : Type}.
Variable time_Format : Time → string → string.
Variable time_Now_UTC : Time.
Variable Apply : AnsiColor → string → string.
Variables ColorBlue ColorGray : AnsiColor.
Variable GetFlagTextColor : Flag → AnsiColor.
Variable pkg_ColorizeStatusCode : Z → string.
Variable pkg_ColorizeByStatusCode : Z → string → string.

(** An event: the two mandatory accessors, and the three optional
    capabilities ([None] when the event's type does not implement the
    interface). A custom renderer is handed the formatter and the
    scratch buffer and leaves the buffer as it likes. *)
Record Event : Type := mkEvent {
  Event_Flag : Flag;
  Event_Timestamp : Time;
  Event_FlagTextColor : option AnsiColor;                  (* FlagTextColorProvider *)
  Event_WriteText : option (TextFormatter → Buffer → Buffer); (* TextWritable *)
  Event_String : option string                             (* fmt.Stringer *)
}.

Record TextWriter : Type := mkTextWriter {
  output : Sink;
  errorOutput : option Sink;
  showTimestamp : bool;
  showLabel : bool;
  useColor : bool;
  timeFormat : string;
  label : string;
  bufferPool : BufferPool
}.

Definition Output (wr : TextWriter) : Sink := output wr.

Definition ErrorOutput (wr : TextWriter) : Sink :=
  match errorOutput wr with
  | Some w => w
  | None => output wr
  end.

Definition Colorize (wr : TextWriter) (value : string) (color : AnsiColor)
  : string :=
  if useColor wr then Apply color value else value.

(** [strconv.Itoa] is the decimal printer. *)
Definition ColorizeStatusCode (wr : TextWriter) (statusCode : Z) : string :=
  if useColor wr then pkg_ColorizeStatusCode statusCode
  else pretty statusCode.

Definition ColorizeByStatusCode (wr : TextWriter) (statusCode : Z)
    (value : string) : string :=
  if useColor wr then pkg_ColorizeByStatusCode statusCode value else value.

(** The writer seen through the [TextFormatter] interface. *)
Definition formatter (wr : TextWriter) : TextFormatter :=
  {| fmt_Colorize := Colorize wr;
     fmt_ColorizeStatusCode := ColorizeStatusCode wr;
     fmt_ColorizeByStatusCode := ColorizeByStatusCode wr |}.

(** [fmt.Sprintf("[%s]", s)]. *)
Definition bracketed (s : string) : string := "[" +:+ s +:+ "]".

Definition FormatFlag (wr : TextWriter) (flag : Flag) (color : AnsiColor)
  : string :=
  bracketed (Colorize wr flag color).

Definition FormatLabel (wr : TextWriter) : string :=
  bracketed (Colorize wr (label wr) ColorBlue).

Definition FormatTimestamp (wr : TextWriter) (optionalTime : list Time)
  : string :=
  let timeFormat :=
    if (0 <? String.length (timeFormat wr))%nat then timeFormat wr
    else DefaultTextTimeFormat in
  match optionalTime with
  | t :: _ => Colorize wr (time_Format t timeFormat) ColorGray
  | [] => Colorize wr (time_Format time_Now_UTC timeFormat) ColorGray
  end.

(** [wr.write(output, e)]: the sink after the flush, the pool after the
    deferred [Put], and the error of the flush. *)
Definition write (wr : TextWriter) (output : Sink) (e : Event)
  : Sink * BufferPool * option string :=
  let '(buf, pool) := BufferPool_Get (bufferPool wr) in
  let buf :=
    if showTimestamp wr then
      WriteRune (WriteString buf (FormatTimestamp wr [Event_Timestamp e]))
                RuneSpace
    else buf in
  let buf :=
    if showLabel wr && (0 <? String.length (label wr))%nat then
      WriteRune (WriteString buf (FormatLabel wr)) RuneSpace
    else buf in
  let buf :=
    match Event_FlagTextColor e with
    | Some flagColor =>
        if (0 <? String.length flagColor)%nat then
          WriteString buf (FormatFlag wr (Event_Flag e) flagColor)
        else
          WriteString buf
            (FormatFlag wr (Event_Flag e) (GetFlagTextColor (Event_Flag e)))
    | None =>
        WriteString buf
          (FormatFlag wr (Event_Flag e) (GetFlagTextColor (Event_Flag e)))
    end in
  let buf := WriteRune buf RuneSpace in
  let buf :=
    match Event_WriteText e with
    | Some writeText => writeText (formatter wr) buf
    | None =>
        match Event_String e with
        | Some s => WriteString buf s
        | None => buf
        end
    end in
  let buf := WriteRune buf RuneNewline in
  let '(output, err) := WriteTo buf output in
  (output, BufferPool_Put pool buf, err).

Definition Write (wr : TextWriter) (e : Event)
  : TextWriter * option string :=
  let '(out, pool, err) := write wr (Output wr) e in
  ({| output := out; errorOutput := errorOutput wr;
      showTimestamp := showTimestamp wr; showLabel := showLabel wr;
      useColor := useColor wr; timeFormat := timeFormat wr;
      label := label wr; bufferPool := pool |}, err).

Definition WriteError (wr : TextWriter) (e : Event)
  : TextWriter * option string :=
  let '(out, pool, err) := write wr (ErrorOutput wr) e in
  ({| output := match errorOutput wr with Some _ => output wr | None => out end;
      errorOutput := match errorOutput wr with Some _ => Some out | None => None end;
      showTimestamp := showTimestamp wr; showLabel := showLabel wr;
      useColor := useColor wr; timeFormat := timeFormat wr;
      label := label wr; bufferPool := pool |}, err).

(** The text a renderer adds when all it does is write to the buffer. *)
Definition appends (writeText : TextFormatter → Buffer → Buffer)
    (text : TextFormatter → string) : Prop :=
  ∀ f buf, writeText f buf = buf +:+ text f.

End TextWriter.

Arguments Event : clear implicits.

(** ** Constructing and configuring a writer *)

(** Modelled from the spec: [NewInterlockedWriter(w)], whose source is not
    among the files, is a synchronized sink over [w]; the lock orders the
    writes of several goroutines and changes none of them, so the sink is
    [w] itself. *)
Definition NewInterlockedWriter (w : Sink) : Sink := w.

(** Modelled from the spec: [NewBufferPool(size)], whose source is not among
    the files; in a new pool no buffer is out on lease. *)
Definition NewBufferPool (size : Z) : BufferPool := {| on_lease := 0 |}.

Definition DefaultBufferPoolSize : Z := Z.shiftl 1 8.
Definition DefaultTextWriterUseColor : bool := true.
Definition DefaultTextWriterShowTimestamp : bool := true.
Definition DefaultTextWriterShowLabel : bool := true.

(** [NewTextWriter(output)]; the fields the literal leaves out are zero: no
    error sink, the empty label. *)
Definition NewTextWriter (output : Sink) : TextWriter :=
  {| output := NewInterlockedWriter output;
     errorOutput := None;
     showTimestamp := DefaultTextWriterShowTimestamp;
     showLabel := DefaultTextWriterShowLabel;
     useColor := DefaultTextWriterUseColor;
     timeFormat := DefaultTextTimeFormat;
     label := "";
     bufferPool := NewBufferPool DefaultBufferPoolSize |}.

Definition WithUseColor (wr : TextWriter) (useColor' : bool) : TextWriter :=
  {| output := output wr; errorOutput := errorOutput wr;
     showTimestamp := showTimestamp wr; showLabel := showLabel wr;
     useColor := useColor'; timeFormat := timeFormat wr;
     label := label wr; bufferPool := bufferPool wr |}.

Definition WithShowTimestamp (wr : TextWriter) (showTimestamp' : bool)
  : TextWriter :=
  {| output := output wr; errorOutput := errorOutput wr;
     showTimestamp := showTimestamp'; showLabel := showLabel wr;
     useColor := useColor wr; timeFormat := timeFormat wr;
     label := label wr; bufferPool := bufferPool wr |}.

Definition WithShowLabel (wr : TextWriter) (showLabel' : bool) : TextWriter :=
  {| output := output wr; errorOutput := errorOutput wr;
     showTimestamp := showTimestamp wr; showLabel := showLabel';
     useColor := useColor wr; timeFormat := timeFormat wr;
     label := label wr; bufferPool := bufferPool wr |}.

Definition WithLabel (wr : TextWriter) (label' : string) : TextWriter :=
  {| output := output wr; errorOutput := errorOutput wr;
     showTimestamp := showTimestamp wr; showLabel := showLabel wr;
     useColor := useColor wr; timeFormat := timeFormat wr;
     label := label'; bufferPool := bufferPool wr |}.

Definition WithTimeFormat (wr : TextWriter) (timeFormat' : string)
  : TextWriter :=
  {| output := output wr; errorOutput := errorOutput wr;
     showTimestamp := showTimestamp wr; showLabel := showLabel wr;
     useColor := useColor wr; timeFormat := timeFormat';
     label := label wr; bufferPool := bufferPool wr |}.

Definition WithOutput (wr : TextWriter) (output' : Sink) : TextWriter :=
  {| output := NewInterlockedWriter output'; errorOutput := errorOutput wr;
     showTimestamp := showTimestamp wr; showLabel := showLabel wr;
     useColor := useColor wr; timeFormat := timeFormat wr;
     label := label wr; bufferPool := bufferPool wr |}.

Definition WithErrorOutput (wr : TextWriter) (errorOutput' : Sink)
  : TextWriter :=
  {| output := output wr;
     errorOutput := Some (NewInterlockedWriter errorOutput');
     showTimestamp := showTimestamp wr; showLabel := showLabel wr;
     useColor := useColor wr; timeFormat := timeFormat wr;
     label := label wr; bufferPool := bufferPool wr |}.

(** The colour [write] gives the flag column: the one the event provides
    when it provides a non-empty one, the one of the catalogue otherwise. *)
Definition flag_color (GetFlagTextColor : string → string) {Time : Type}
    (e : Event Time) : string :=
  match Event_FlagTextColor e with
  | Some flagColor =>
      if (0 <? String.length flagColor)%nat then flagColor
      else GetFlagTextColor (Event_Flag e)
  | None => GetFlagTextColor (Event_Flag e)
  end.

(** The time format [FormatTimestamp] uses. *)
Definition effective_timeFormat (wr : TextWriter) : string :=
  if (0 <? String.length (timeFormat wr))%nat then timeFormat wr
  else DefaultTextTimeFormat.

(** ** The events of the pinger *)

(** [type message struct] of the application, and [wrap], given what
    [time.Now().UTC()] returns. *)
Record message (Time : Type) : Type := mkMessage {
  message_Time : Time;
  message_Status : Z;
  message_URL : string;
  message_Error : string
}.
Arguments mkMessage {Time}.
Arguments message_Time {Time}.
Arguments message_Status {Time}.
Arguments message_URL {Time}.
Arguments message_Error {Time}.

Definition wrap {Time : Type} (now : Time) (url : string) (status : Z)
    (err : string) : message Time :=
  {| message_Time := now; message_Status := status; message_URL := url;
     message_Error := err |}.

(** A message as the logger sees it: [Flag()] is ["ping"], [Timestamp()]
    is the time field, and the type has no other method, so none of the
    three optional capabilities. *)
Definition message_event {Time : Type} (m : message Time) : Event Time :=
  {| Event_Flag := "ping";
     Event_Timestamp := message_Time m;
     Event_FlagTextColor := None;
     Event_WriteText := None;
     Event_String := None |}.

(** ** A sample writer *)

(** Times are numbers, formatted as the layout, ["@"] and the number; a
    colour is applied by writing its code in front. *)
Definition sample_time_Format (t : nat) (layout : string) : string :=
  layout +:+ "@" +:+ pretty t.

Definition sample_Apply (color value : string) : string := color +:+ value.

Definition sample_writer : TextWriter :=
  {| output := {| received := []; failure := None |};
     errorOutput := None;
     showTimestamp := true; showLabel := true; useColor := false;
     timeFormat := "unix"; label := "";
     bufferPool := {| on_lease := 0 |} |}.

(** An event with the flag ["ping"] whose custom renderer writes ["up"] in
    green. *)
Definition sample_text (f : TextFormatter) : string :=
  fmt_Colorize f "up" "green".

Definition sample_event : Event nat :=
  {| Event_Flag := "ping";
     Event_Timestamp := 7;
     Event_FlagTextColor := None;
     Event_WriteText := Some (λ f buf, WriteString buf (sample_text f));
     Event_String := Some "unused" |}.

(** A sink that fails, and the sample writer with it as error sink. *)
Definition broken_sink : Sink :=
  {| received := ["earlier"]; failure := Some "disk full" |}.

Definition sample_writer_with_errors : TextWriter :=
  WithErrorOutput sample_writer broken_sink.

Definition sample_Write : TextWriter * option string :=
  Write sample_time_Format 0 sample_Apply "blue" "gray" (λ _, "white")
        pretty (λ _ value, value) sample_writer sample_event.

(** ** Sample flag sets *)

(** What [NewFlagSetFromCSV] builds from ["all,none"]. *)
Definition all_and_none : FlagSet :=
  {| flags := Some {[ "all" := true; "none" := true ]}; all := true;
     none := true |}.

Definition all_none_error_off : FlagSet :=
  {| flags := Some {[ "error" := false ]}; all := true; none := true |}.

(** What [NewFlagSetFromCSV] builds from ["all,-error"]. *)
Definition all_minus_error : FlagSet :=
  {| flags := Some (<["error" := false]> (<["all" := true]> ∅));
     all := true; none := false |}.

(** What [NewFlagSetFromCSV] builds from ["-info"], and that set after
    [SetAll] and [Disable("error")]. *)
Definition info_off : FlagSet :=
  {| flags := Some {[ "info" := false ]}; all := false; none := false |}.

Definition info_off_all_minus_error : FlagSet :=
  {| flags := Some (<["error" := false]> {[ "info" := false ]});
     all := true; none := false |}.

(** What [NewFlagSetFromCSV] builds from ["ALL"]. *)
Definition all_upper_parsed : FlagSet :=
  {| flags := Some {[ "all" := true ]}; all := true; none := false |}.

(** The empty set [NewFlagSet()] builds, and the set [NewFlagSet("info")]
    builds. *)
Definition no_flags : FlagSet :=
  {| flags := Some ∅; all := false; none := false |}.

Definition info_on : FlagSet :=
  {| flags := Some {[ "info" := true ]}; all := false; none := false |}.

(** [NewFlagSetNone()] after [CoalesceWith(NewFlagSet("info"))]. *)
Definition none_with_info : FlagSet :=
  {| flags := Some {[ "info" := true ]}; all := false; none := true |}.

(** The map after the entries were stored one by one. *)
Definition store_all (g : gmap string bool) (entries : list (Flag * bool))
  : gmap string bool :=
  fold_left (λ m entry, <[entry.1 := entry.2]> m) entries g.

(** ** Shapes of strings *)

Definition is_upper_byte (c : ascii) : bool :=
  let n := nat_of_ascii c in ((65 <=? n) && (n <=? 90))%nat.

(** The string holds one of the letters 'A'..'Z'. *)
Fixpoint has_upper (s : string) : bool :=
  match s with
  | EmptyString => false
  | String c r => is_upper_byte c || has_upper r
  end.

(** No byte from 0x80 on: the strings on which [strings.ToLower] is
    embedded exactly. *)
Fixpoint ascii_only (s : string) : bool :=
  match s with
  | EmptyString => true
  | String c r => (nat_of_ascii c <? 128)%nat && ascii_only r
  end.

(** A flag that reads back as itself when written as a CSV token: ASCII,
    no upper-case letter, no blank at either end, no comma, no leading
    dash. *)
Definition plain_flag (k : string) : bool :=
  ascii_only k && negb (has_upper k) &&
  String.eqb (strings.TrimLeft k blanks) k &&
  String.eqb (strings.TrimRight k blanks) k &&
  negb (strings.contains_byte k ",") &&
  negb (strings.HasPrefix k "-").

(** An entry whose token, if [String] writes one, parses back to the
    entry: the key is plain; the key ["all"] only stands with the all bit
    and the value true; the key ["none"] does not stand enabled unless the
    all bit hides it. *)
Definition round_trip_entry (efs : FlagSet) (k : string) (v : bool) : bool :=
  plain_flag k &&
  (if String.eqb k FlagAll then all efs && v else true) &&
  (if String.eqb k FlagNone then all efs || negb v else true).

(** The sets whose [String] parses back to the same verdicts: not both
    bits set and, unless the none bit is set, every entry as above. *)
Definition round_trippable (efs : FlagSet) : Prop :=
  (none efs = true → all efs = false) ∧
  (none efs = false →
   ∀ (k : string) (v : bool),
     map_index (flags efs) k = Some v → round_trip_entry efs k v = true).

(** The tokens one entry adds in the loop of [String]. *)
Definition entry_tokens (efs : FlagSet) (entry : Flag * bool) : list string :=
  append_token efs [] entry.

(** The entries [String] writes a token for. *)
Definition emitted (efs : FlagSet) (entry : Flag * bool) : bool :=
  bool_decide (entry.1 ≠ FlagAll) && (negb entry.2 || negb (all efs)).

(** One turn of the parsing loop as a function of the parsed flag, on an
    allocated map. *)
Definition parsed_step (flagSet : FlagSet) (parsedFlag : string) : FlagSet :=
  {| flags :=
       Some (if strings.HasPrefix parsedFlag "-"
             then <[strings.TrimPrefix parsedFlag "-" := false]>
                    (default ∅ (flags flagSet))
             else <[parsedFlag := true]> (default ∅ (flags flagSet)));
     all := String.eqb parsedFlag FlagAll || all flagSet;
     none := String.eqb parsedFlag FlagNone || none flagSet |}.

(** What [NewFlagSetFromCSV("none")] followed by [Enable("info")] builds. *)
Definition none_key_info : FlagSet :=
  {| flags := Some (<["info" := true]> {[ "none" := true ]});
     all := false; none := false |}.

(** What [NewFlagSet("ERROR")] builds, and what [NewFlagSetFromCSV] builds
    from its [String]. *)
Definition error_upper_on : FlagSet :=
  {| flags := Some {[ "ERROR" := true ]}; all := false; none := false |}.

Definition error_lower_on : FlagSet :=
  {| flags := Some {[ "error" := true ]}; all := false; none := false |}.

(** What [NewFlagSetFromCSV] builds from ["none"]. *)
Definition none_parsed : FlagSet :=
  {| flags := Some {[ "none" := true ]}; all := false; none := true |}.

(** A token that is its own parsed form. *)
Definition normal_token (t : string) : Prop :=
  has_upper t = false ∧
  strings.TrimLeft t blanks = t ∧
  strings.TrimRight t blanks = t.

(** ** The rest of the flag set *)

(** [NewFlagSetFromEnv()], given what [env.Env().String(EnvVarLogEvents)]
    returns: the value of the variable, the empty string when it is not
    set. *)
Definition NewFlagSetFromEnv (envEventsFlag : string) : outcome FlagSet :=
  if (0 <? String.length envEventsFlag)%nat
  then NewFlagSetFromCSV envEventsFlag
  else NewFlagSet [].

(** The key under which one turn of the parsing loop stores its entry:
    the parsed flag, without its dash when it has one. *)
Definition entry_key (parsedFlag : string) : Flag :=
  if strings.HasPrefix parsedFlag "-"
  then strings.TrimPrefix parsedFlag "-"
  else parsedFlag.

(** [efs.All()]; [efs.None()] reads the field [none] the same way. *)
Definition All (efs : FlagSet) : bool := all efs.

(** * Properties of FlagSet *)

(** ** The embedding on small inputs *)

Example Split_empty : strings.Split "" "," = [""].
Proof. reflexivity. Qed.

Example Split_trailing_comma :
  strings.Split "a,,b," "," = ["a"; ""; "b"; ""].
Proof. reflexivity. Qed.

Example parsedFlag_of_padded : parsedFlag_of " ERROR " = "error".
Proof. reflexivity. Qed.

Example TrimPrefix_dash : strings.TrimPrefix "-error" "-" = "error".
Proof. reflexivity. Qed.

Example String_all_minus_error :
  FlagSet_String all_minus_error [("error", false); ("all", true)]
  = "all, -error".
Proof. reflexivity. Qed.

Example String_no_flags : FlagSet_String no_flags [] = "".
Proof. reflexivity. Qed.

(** The zero value of the struct has the nil map: it reads, and a store
    panics. *)
Example IsEnabled_zero_value :
  IsEnabled {| flags := None; all := false; none := false |} "error" = false.
Proof. reflexivity. Qed.

Example Enable_zero_value :
  Enable {| flags := None; all := false; none := false |} "error"
  = runtime_error "assignment to entry in nil map".
Proof. reflexivity. Qed.

Example NewFlagSet_info : NewFlagSet ["info"] = Return info_on.
Proof. vm_compute. reflexivity. Qed.

Section FlagSetFacts.

Implicit Types (efs other : FlagSet) (f flag key : string) (v : bool).

(** What [IsEnabled] answers, bit by bit. *)
Lemma IsEnabled_all efs f :
  all efs = true →
  IsEnabled efs f = negb (bool_decide (map_index (flags efs) f = Some false)).
Proof.
  intros Hall. unfold IsEnabled. rewrite Hall.
  destruct (map_index (flags efs) f) as [[]|]; reflexivity.
Qed.

Lemma IsEnabled_none_only efs f :
  all efs = false → none efs = true → IsEnabled efs f = false.
Proof. intros Hall Hnone. unfold IsEnabled. by rewrite Hall, Hnone. Qed.

Lemma IsEnabled_entries efs f :
  all efs = false → none efs = false →
  IsEnabled efs f = default false (map_index (flags efs) f).
Proof.
  intros Hall Hnone. unfold IsEnabled, map_index. rewrite Hall, Hnone.
  destruct (flags efs) as [g|]; [|done]. by destruct (g !! f).
Qed.

(** Storing into an allocated map returns. *)
Lemma map_assign_alloc (g : gmap string bool) key v :
  map_assign (Some g) key v = Return (<[key:=v]> g).
Proof. reflexivity. Qed.

Lemma Disable_alloc efs (g : gmap string bool) flag :
  flags efs = Some g →
  Disable efs flag =
    Return {| flags := Some (<[flag:=false]> g); all := all efs;
              none := none efs |}.
Proof. intros Hg. unfold Disable. by rewrite Hg. Qed.

Lemma Enable_alloc efs (g : gmap string bool) flag :
  flags efs = Some g →
  Enable efs flag =
    Return {| flags := Some (<[flag:=true]> g); all := all efs;
              none := false |}.
Proof. intros Hg. unfold Enable. by rewrite Hg. Qed.

End FlagSetFacts.

(** C1, as the code has it. With the none bit set, [IsEnabled] answers
    false for every flag when the all bit is unset; when the all bit is set
    too, the all bit is consulted first, and the answer is false exactly
    for the flags whose per-flag entry is an explicit false. *)
Theorem IsEnabled_none_bit (efs : FlagSet) (f : string) :
  none efs = true →
  IsEnabled efs f =
    all efs && negb (bool_decide (map_index (flags efs) f = Some false)).
Proof.
  intros Hnone. destruct (all efs) eqn:Hall.
  - by rewrite IsEnabled_all.
  - by rewrite IsEnabled_none_only.
Qed.

Lemma IsEnabled_none_bit_witness :
  none all_none_error_off = true ∧
  IsEnabled all_none_error_off "info" =
    all all_none_error_off &&
    negb (bool_decide
            (map_index (flags all_none_error_off) "info" = Some false)).
Proof. split; [reflexivity | apply IsEnabled_none_bit; reflexivity]. Defined.

(** C1 fails as stated: the set parsed from ["all,none"] has both bits set
    and still enables the flag ["info"]. *)
Lemma IsEnabled_both_bits_counterexample :
  NewFlagSetFromCSV "all,none" = Return all_and_none ∧
  all all_and_none = true ∧ none all_and_none = true ∧
  IsEnabled all_and_none "info" = true.
Proof. repeat split; vm_compute; reflexivity. Qed.

(** C5. After [SetNone] the per-flag map is empty, the all bit is off, the
    none bit is on, and no flag is enabled, whatever the set held. *)
Theorem SetNone_clears_everything (efs : FlagSet) :
  flags (SetNone efs) = Some ∅ ∧
  all (SetNone efs) = false ∧
  none (SetNone efs) = true ∧
  ∀ f : string, IsEnabled (SetNone efs) f = false.
Proof. repeat split. Qed.

(** ** Overriding the all bit *)

Lemma parse_all_minus_error :
  NewFlagSetFromCSV "all,-error" = Return all_minus_error.
Proof. vm_compute. reflexivity. Qed.

(** C6, as the code has it. On a set whose map is allocated, [SetAll]
    followed by [Disable(x)] returns, disables [x], and enables every other
    flag except those the set already held an explicit false entry for
    ([SetAll] keeps the entries); the set parsed from ["all,-error"]
    disables ["error"] and enables every other flag. *)
Theorem SetAll_Disable_overrides (efs : FlagSet) (x : string) :
  is_Some (flags efs) →
  (∃ efs', Disable (SetAll efs) x = Return efs' ∧
           IsEnabled efs' x = false ∧
           ∀ y : string, y ≠ x →
             IsEnabled efs' y =
               negb (bool_decide (map_index (flags efs) y = Some false))) ∧
  (∃ parsed, NewFlagSetFromCSV "all,-error" = Return parsed ∧
             IsEnabled parsed "error" = false ∧
             ∀ y : string, y ≠ "error" → IsEnabled parsed y = true).
Proof.
  intros [g Hg]. split.
  - eexists. split; [apply (Disable_alloc (SetAll efs) g x Hg)|]. split.
    + rewrite IsEnabled_all by done. simpl. by rewrite lookup_insert_eq.
    + intros y Hy. rewrite IsEnabled_all by done. simpl.
      rewrite lookup_insert_ne by done. by rewrite Hg.
  - exists all_minus_error. split; [apply parse_all_minus_error|]. split.
    + reflexivity.
    + intros y Hy. rewrite IsEnabled_all by done.
      unfold all_minus_error; simpl.
      rewrite lookup_insert_ne by done.
      destruct (decide (y = "all")) as [->|Hall]; [done|].
      rewrite lookup_insert_ne by done. by rewrite lookup_empty.
Qed.

Lemma SetAll_Disable_overrides_witness :
  is_Some (flags info_off) ∧
  (∃ efs', Disable (SetAll info_off) "error" = Return efs' ∧
           IsEnabled efs' "error" = false ∧
           ∀ y : string, y ≠ "error" →
             IsEnabled efs' y =
               negb (bool_decide (map_index (flags info_off) y = Some false))) ∧
  (∃ parsed, NewFlagSetFromCSV "all,-error" = Return parsed ∧
             IsEnabled parsed "error" = false ∧
             ∀ y : string, y ≠ "error" → IsEnabled parsed y = true).
Proof.
  assert (Halloc : is_Some (flags info_off)) by (eexists; reflexivity).
  split; [exact Halloc | exact (SetAll_Disable_overrides info_off "error" Halloc)].
Defined.

(** C6 fails as stated: the set parsed from ["-info"], after [SetAll] and
    [Disable("error")], still disables ["info"], a flag other than the one
    just disabled. *)
Lemma SetAll_Disable_other_flag_counterexample :
  NewFlagSetFromCSV "-info" = Return info_off ∧
  Disable (SetAll info_off) "error" = Return info_off_all_minus_error ∧
  "info" ≠ "error" ∧
  IsEnabled info_off_all_minus_error "info" = false.
Proof. repeat split; try (vm_compute; reflexivity). discriminate. Qed.

(** ** Lower-casing at construction *)

Section StringFacts.

Implicit Types (s t cutset : string) (c sep : ascii).

Lemma lower_byte_not_upper c : is_upper_byte (strings.lower_byte c) = false.
Proof. by destruct c as [[] [] [] [] [] [] [] []]. Qed.

Lemma has_upper_ToLower s : has_upper (strings.ToLower s) = false.
Proof.
  induction s as [|c r IH]; simpl; [done|].
  by rewrite lower_byte_not_upper, IH.
Qed.

Lemma has_upper_TrimLeft s cutset :
  has_upper s = false → has_upper (strings.TrimLeft s cutset) = false.
Proof.
  induction s as [|c r IH]; simpl; [done|].
  intros [Hc Hr]%orb_false_elim.
  destruct (strings.contains_byte cutset c); [by apply IH|].
  simpl. by rewrite Hc, Hr.
Qed.

Lemma has_upper_TrimRight s cutset :
  has_upper s = false → has_upper (strings.TrimRight s cutset) = false.
Proof.
  induction s as [|c r IH]; simpl; [done|].
  intros [Hc Hr]%orb_false_elim. specialize (IH Hr).
  destruct (strings.TrimRight r cutset) as [|d kept].
  - destruct (strings.contains_byte cutset c); simpl; [done|].
    by rewrite Hc.
  - change (has_upper (String c (String d kept)))
      with (is_upper_byte c || has_upper (String d kept)).
    by rewrite Hc, IH.
Qed.

Lemma has_upper_parsedFlag_of t : has_upper (parsedFlag_of t) = false.
Proof.
  unfold parsedFlag_of, strings.Trim.
  apply has_upper_TrimRight, has_upper_TrimLeft, has_upper_ToLower.
Qed.

(** A token with an upper-case letter is not its own parsed form. *)
Lemma parsedFlag_of_upper t : has_upper t = true → t ≠ parsedFlag_of t.
Proof.
  intros Hup Heq. rewrite Heq, has_upper_parsedFlag_of in Hup. done.
Qed.

Lemma Split_no_sep s sep :
  strings.contains_byte s sep = false → strings.Split s sep = [s].
Proof.
  induction s as [|c r IH]; simpl; [done|].
  rewrite Ascii.eqb_sym. intros [Hc Hr]%orb_false_elim.
  by rewrite Hc, (IH Hr).
Qed.

End StringFacts.

(** One turn of the parsing loop on a set whose map is allocated: the bits
    follow the two sentinels, and one entry is stored. *)
Lemma parse_flag_alloc (flagSet : FlagSet) (g : gmap string bool)
    (flag : string) :
  flags flagSet = Some g →
  parse_flag flagSet flag =
    Return {| flags :=
                Some (if strings.HasPrefix (parsedFlag_of flag) "-"
                      then <[strings.TrimPrefix (parsedFlag_of flag) "-" := false]> g
                      else <[parsedFlag_of flag := true]> g);
              all := String.eqb (parsedFlag_of flag) FlagAll || all flagSet;
              none := String.eqb (parsedFlag_of flag) FlagNone || none flagSet |}.
Proof.
  intros Hg. unfold parse_flag.
  destruct (String.eqb (parsedFlag_of flag) FlagAll) eqn:Ha;
    destruct (String.eqb (parsedFlag_of flag) FlagNone) eqn:Hn;
    destruct (strings.HasPrefix (parsedFlag_of flag) "-") eqn:Hp;
    simpl; rewrite Hg; reflexivity.
Qed.

(** C10, as the code has it. A CSV of one ASCII token (no comma) whose
    parsed form (lower-cased, then trimmed) is neither sentinel and does not
    start with ["-"] builds a set that enables the parsed form and nothing
    else; so when the token holds an upper-case letter, the token as
    written is not enabled. *)
Theorem NewFlagSetFromCSV_lowercases (token : string) :
  ascii_only token = true →
  strings.contains_byte token "," = false →
  parsedFlag_of token ≠ FlagAll →
  parsedFlag_of token ≠ FlagNone →
  strings.HasPrefix (parsedFlag_of token) "-" = false →
  ∃ efs, NewFlagSetFromCSV token = Return efs ∧
         IsEnabled efs (parsedFlag_of token) = true ∧
         (∀ f : string, f ≠ parsedFlag_of token → IsEnabled efs f = false) ∧
         (has_upper token = true → IsEnabled efs token = false).
Proof.
  intros _ Hcomma Hall Hnone Hdash.
  unfold NewFlagSetFromCSV. rewrite (Split_no_sep _ _ Hcomma). simpl.
  rewrite (parse_flag_alloc {| flags := Some ∅; all := false; none := false |}
             ∅ token eq_refl). simpl.
  rewrite Hdash.
  apply String.eqb_neq in Hall as ->. apply String.eqb_neq in Hnone as ->.
  eexists. split; [reflexivity|].
  assert (Hother : ∀ f : string, f ≠ parsedFlag_of token →
            IsEnabled
              {| flags := Some (<[parsedFlag_of token:=true]> ∅);
                 all := false || false; none := false || false |} f = false).
  { intros f Hf. rewrite IsEnabled_entries by done. simpl.
    rewrite lookup_insert_ne by done. by rewrite lookup_empty. }
  split; [|split].
  - rewrite IsEnabled_entries by done. simpl. by rewrite lookup_insert_eq.
  - exact Hother.
  - intros Hup. apply Hother. by apply parsedFlag_of_upper.
Qed.

Lemma NewFlagSetFromCSV_lowercases_witness :
  ascii_only "ERROR" = true ∧
  strings.contains_byte "ERROR" "," = false ∧
  parsedFlag_of "ERROR" ≠ FlagAll ∧
  parsedFlag_of "ERROR" ≠ FlagNone ∧
  strings.HasPrefix (parsedFlag_of "ERROR") "-" = false ∧
  ∃ efs, NewFlagSetFromCSV "ERROR" = Return efs ∧
         IsEnabled efs (parsedFlag_of "ERROR") = true ∧
         (∀ f : string, f ≠ parsedFlag_of "ERROR" → IsEnabled efs f = false) ∧
         (has_upper "ERROR" = true → IsEnabled efs "ERROR" = false).
Proof.
  assert (H0 : ascii_only "ERROR" = true) by reflexivity.
  assert (H1 : strings.contains_byte "ERROR" "," = false) by reflexivity.
  assert (H2 : parsedFlag_of "ERROR" ≠ FlagAll) by (vm_compute; discriminate).
  assert (H3 : parsedFlag_of "ERROR" ≠ FlagNone) by (vm_compute; discriminate).
  assert (H4 : strings.HasPrefix (parsedFlag_of "ERROR") "-" = false)
    by reflexivity.
  repeat (split; [assumption|]).
  exact (NewFlagSetFromCSV_lowercases "ERROR" H0 H1 H2 H3 H4).
Defined.

(** C10 fails as stated: the token ["ALL"] holds upper-case letters, and
    the set parsed from it enables ["ALL"] as written (the token is the all
    sentinel once lower-cased). *)
Lemma NewFlagSetFromCSV_upper_sentinel_counterexample :
  ascii_only "ALL" = true ∧
  has_upper "ALL" = true ∧
  NewFlagSetFromCSV "ALL" = Return all_upper_parsed ∧
  IsEnabled all_upper_parsed "ALL" = true.
Proof. repeat split; vm_compute; reflexivity. Qed.

(** ** Merging *)

Section CoalesceFacts.

Implicit Types (g : gmap string bool) (entries order : list (string * bool)).

Lemma IsEnabled_unfold (efs : FlagSet) (f : string) :
  IsEnabled efs f =
    if all efs
    then negb (bool_decide (map_index (flags efs) f = Some false))
    else if none efs then false
    else default false (map_index (flags efs) f).
Proof.
  destruct (all efs) eqn:Hall; [by apply IsEnabled_all|].
  destruct (none efs) eqn:Hnone; [by apply IsEnabled_none_only|].
  by apply IsEnabled_entries.
Qed.

Lemma assign_each_alloc g entries :
  assign_each (Some g) entries = Return (Some (store_all g entries)).
Proof.
  revert g. induction entries as [|[k v] rest IH]; intros g; [done|].
  simpl. apply IH.
Qed.

Lemma store_all_lookup_notin g entries (k : string) :
  k ∉ entries.*1 → store_all g entries !! k = g !! k.
Proof.
  revert g. induction entries as [|[k' v'] rest IH]; intros g Hk; [done|].
  simpl in *. apply not_elem_of_cons in Hk as [Hne Hk].
  unfold store_all in *. simpl. rewrite IH by done.
  by rewrite lookup_insert_ne.
Qed.

Lemma store_all_lookup_in g entries (k : string) (v : bool) :
  NoDup entries.*1 → (k, v) ∈ entries → store_all g entries !! k = Some v.
Proof.
  revert g. induction entries as [|[k' v'] rest IH]; intros g Hnd Hin.
  - by apply elem_of_nil in Hin.
  - simpl in Hnd. apply NoDup_cons in Hnd as [Hfresh Hnd].
    apply elem_of_cons in Hin as [Heq|Hin].
    + injection Heq as -> ->. unfold store_all. simpl.
      change (store_all (<[k':=v']> g) rest !! k' = Some v').
      rewrite store_all_lookup_notin by done. apply lookup_insert_eq.
    + unfold store_all. simpl. by apply IH.
Qed.

(** What a range over a map visits, whatever the order. *)
Lemma range_order_NoDup (m : option (gmap string bool)) order :
  range_order m order → NoDup order.*1.
Proof.
  unfold range_order. intros ->. destruct m as [g|]; simpl.
  - apply NoDup_fst_map_to_list.
  - constructor.
Qed.

Lemma range_order_elem_of (m : option (gmap string bool)) order
    (k : string) (v : bool) :
  range_order m order → (k, v) ∈ order ↔ map_index m k = Some v.
Proof.
  unfold range_order. intros ->. destruct m as [g|]; simpl.
  - apply elem_of_map_to_list.
  - split; [by intros ?%elem_of_nil | done].
Qed.

Lemma range_order_not_elem_of (m : option (gmap string bool)) order
    (k : string) :
  range_order m order → map_index m k = None → k ∉ order.*1.
Proof.
  intros Hord Hk [[k' v] [-> Hin]]%list_elem_of_fmap. simpl in Hk.
  apply (range_order_elem_of m order k' v Hord) in Hin. congruence.
Qed.

(** The set [CoalesceWith] leaves when self's map is allocated. *)
Lemma CoalesceWith_alloc (efs other : FlagSet) g order :
  flags efs = Some g →
  CoalesceWith efs other order =
    Return {| flags := Some (store_all g order);
              all := all other || all efs;
              none := none other || none efs |}.
Proof.
  intros Hg. unfold CoalesceWith.
  destruct (all other), (none other); simpl; rewrite Hg;
    rewrite assign_each_alloc; reflexivity.
Qed.

End CoalesceFacts.

(** C2, as the code has it. On a self whose map is allocated,
    [CoalesceWith] returns; for a flag with an entry in other's map the
    merged verdict is other's verdict when that entry is false, or when the
    none bit is set in neither set; for a flag without an entry in other's
    map the merged verdict is the verdict of the original self when other
    sets no bit (all, none) that self does not have. *)
Theorem CoalesceWith_right_biased (efs other : FlagSet)
    (order : list (string * bool)) :
  is_Some (flags efs) →
  range_order (flags other) order →
  ∃ merged, CoalesceWith efs other order = Return merged ∧
    (∀ (f : string) (v : bool),
        map_index (flags other) f = Some v →
        v = false ∨ (none efs = false ∧ none other = false) →
        IsEnabled merged f = IsEnabled other f) ∧
    (∀ f : string,
        map_index (flags other) f = None →
        (all other = true → all efs = true) →
        (none other = true → none efs = true) →
        IsEnabled merged f = IsEnabled efs f).
Proof.
  intros [g Hg] Hord.
  eexists. split; [apply (CoalesceWith_alloc efs other g order Hg)|].
  split.
  - intros f v Hf Hcond.
    rewrite !IsEnabled_unfold. simpl. rewrite Hf.
    rewrite (store_all_lookup_in g order f v);
      [|by eapply range_order_NoDup|by apply (range_order_elem_of _ _ f v Hord)].
    destruct Hcond as [->|[-> ->]].
    + by destruct (all other), (all efs), (none other), (none efs).
    + by destruct (all other), (all efs), v.
  - intros f Hf Hall Hnone.
    rewrite !IsEnabled_unfold. simpl.
    rewrite store_all_lookup_notin by (by eapply range_order_not_elem_of).
    rewrite Hg. simpl.
    destruct (all other); [rewrite Hall by done|];
      (destruct (none other); [rewrite Hnone by done|]); simpl;
      by rewrite ?orb_true_r.
Qed.

Lemma CoalesceWith_right_biased_witness :
  is_Some (flags no_flags) ∧
  range_order (flags info_on) [("info", true)] ∧
  ∃ merged, CoalesceWith no_flags info_on [("info", true)] = Return merged ∧
    (∀ (f : string) (v : bool),
        map_index (flags info_on) f = Some v →
        v = false ∨ (none no_flags = false ∧ none info_on = false) →
        IsEnabled merged f = IsEnabled info_on f) ∧
    (∀ f : string,
        map_index (flags info_on) f = None →
        (all info_on = true → all no_flags = true) →
        (none info_on = true → none no_flags = true) →
        IsEnabled merged f = IsEnabled no_flags f).
Proof.
  assert (H1 : is_Some (flags no_flags)) by (eexists; reflexivity).
  assert (H2 : range_order (flags info_on) [("info", true)]).
  { unfold range_order. simpl. by rewrite map_to_list_singleton. }
  split; [exact H1|]. split; [exact H2|].
  exact (CoalesceWith_right_biased no_flags info_on [("info", true)] H1 H2).
Defined.

(** C2 fails as stated, on both halves: merging [NewFlagSetAll()] into the
    empty set enables ["info"], a flag without an entry in other's map that
    the original self did not enable; merging [NewFlagSet("info")] into
    [NewFlagSetNone()] leaves ["info"] disabled, a flag with an entry in
    other's map that other enables. *)
Lemma CoalesceWith_verdict_counterexample :
  (range_order (flags NewFlagSetAll) [] ∧
   map_index (flags NewFlagSetAll) "info" = None ∧
   CoalesceWith no_flags NewFlagSetAll [] = Return NewFlagSetAll ∧
   IsEnabled NewFlagSetAll "info" = true ∧
   IsEnabled no_flags "info" = false) ∧
  (range_order (flags info_on) [("info", true)] ∧
   map_index (flags info_on) "info" = Some true ∧
   CoalesceWith NewFlagSetNone info_on [("info", true)]
     = Return none_with_info ∧
   IsEnabled none_with_info "info" = false ∧
   IsEnabled info_on "info" = true).
Proof.
  split; repeat split; vm_compute; reflexivity.
Qed.


(** ** The tokens of String *)

Section TokenFacts.

Implicit Types (efs : FlagSet) (order : list (string * bool)) (k t : string).

Lemma dash_app k : "-" +:+ k = String "-" k.
Proof. reflexivity. Qed.

Lemma append_token_app efs (tokens : list string) (entry : string * bool) :
  append_token efs tokens entry = tokens ++ entry_tokens efs entry.
Proof.
  unfold entry_tokens, append_token. destruct entry as [k v].
  destruct (bool_decide (k ≠ FlagAll)), v, (negb (all efs));
    simpl; by rewrite ?app_nil_r.
Qed.

Lemma fold_append_token efs (tokens : list string) order :
  fold_left (append_token efs) order tokens
  = tokens ++ (order ≫= entry_tokens efs).
Proof.
  revert tokens. induction order as [|entry rest IH]; intros tokens.
  - simpl. by rewrite app_nil_r.
  - rewrite bind_cons. cbn [fold_left].
    rewrite IH, append_token_app. by rewrite <-app_assoc.
Qed.

Lemma flag_tokens_eq efs order :
  flag_tokens efs order
  = (if all efs then [FlagAll] else []) ++ (order ≫= entry_tokens efs).
Proof. apply fold_append_token. Qed.

Lemma entry_tokens_eq efs k (v : bool) :
  entry_tokens efs (k, v)
  = if emitted efs (k, v) then [if v then k else "-" +:+ k] else [].
Proof.
  unfold entry_tokens, append_token, emitted. simpl.
  by destruct (bool_decide (k ≠ FlagAll)), v, (all efs).
Qed.

(** The tokens [String] joins when the none bit is unset: ["all"] exactly
    when the all bit is set; ["-key"] for every entry disabled and the bare
    key for every entry enabled while the all bit is unset, the key
    ["all"] apart. *)
Lemma elem_of_flag_tokens efs order t :
  t ∈ flag_tokens efs order ↔
    (t = FlagAll ∧ all efs = true) ∨
    ∃ k (v : bool), (k, v) ∈ order ∧ k ≠ FlagAll ∧
      ((v = true ∧ all efs = false ∧ t = k) ∨ (v = false ∧ t = "-" +:+ k)).
Proof.
  rewrite flag_tokens_eq, elem_of_app, list_elem_of_bind.
  split.
  - intros [Hinit|[[k v] [Ht Hin]]].
    + left. destruct (all efs); [|by apply elem_of_nil in Hinit].
      by apply list_elem_of_singleton in Hinit.
    + right. exists k, v. rewrite entry_tokens_eq in Ht.
      unfold emitted in Ht. simpl in Ht.
      destruct (bool_decide_reflect (k ≠ FlagAll)) as [Hk|Hk];
        [|by apply elem_of_nil in Ht].
      destruct v, (all efs); simpl in Ht;
        try (by apply elem_of_nil in Ht);
        apply list_elem_of_singleton in Ht; subst; naive_solver.
  - intros [[-> ->]|(k & v & Hin & Hk & Hcase)].
    + left. by apply list_elem_of_singleton.
    + right. exists (k, v). split; [|done].
      rewrite entry_tokens_eq. unfold emitted. simpl.
      rewrite (bool_decide_eq_true_2 _ Hk).
      destruct Hcase as [(-> & -> & ->)|[-> ->]]; simpl;
        by apply list_elem_of_singleton.
Qed.

End TokenFacts.

(** C4 at the failing input: after [NewFlagSetFromCSV("none")] and
    [Enable("info")] the none bit is unset and the map holds the key
    ["none"]; the loop of [String] writes that reserved key as a token, in
    either order of the range. *)
Theorem String_writes_none_key :
  (NewFlagSetFromCSV "none" ≫= λ efs, Enable efs "info")
    = Return none_key_info ∧
  none none_key_info = false ∧
  range_order (flags none_key_info) [("none", true); ("info", true)] ∧
  range_order (flags none_key_info) [("info", true); ("none", true)] ∧
  FlagSet_String none_key_info [("none", true); ("info", true)]
    = "none, info" ∧
  FlagSet_String none_key_info [("info", true); ("none", true)]
    = "info, none".
Proof.
  repeat split; try (vm_compute; reflexivity);
    unfold range_order; vm_compute;
    first [reflexivity | apply Permutation_swap].
Qed.

(** ** Reading back what String wrote *)

Section RoundTripFacts.

Implicit Types (efs fs : FlagSet) (order : list (string * bool)).
Implicit Types (k t e s : string) (g : gmap string bool).

Lemma app_String (c : ascii) s t : String c s +:+ t = String c (s +:+ t).
Proof. reflexivity. Qed.

Lemma lower_byte_id (c : ascii) :
  is_upper_byte c = false → strings.lower_byte c = c.
Proof. unfold is_upper_byte, strings.lower_byte. by intros ->. Qed.

Lemma ToLower_no_upper s : has_upper s = false → strings.ToLower s = s.
Proof.
  induction s as [|c r IH]; simpl; [done|].
  intros [Hc Hr]%orb_false_elim. by rewrite (lower_byte_id c Hc), (IH Hr).
Qed.

Lemma parsedFlag_of_normal t : normal_token t → parsedFlag_of t = t.
Proof.
  intros (Hup & Hl & Hr). unfold parsedFlag_of, strings.Trim.
  by rewrite (ToLower_no_upper t Hup), Hl, Hr.
Qed.

Lemma parsedFlag_of_space t :
  normal_token t → parsedFlag_of (String " " t) = t.
Proof.
  intros (Hup & Hl & Hr). unfold parsedFlag_of, strings.Trim.
  change (strings.ToLower (String " " t))
    with (String " " (strings.ToLower t)).
  rewrite (ToLower_no_upper t Hup).
  change (strings.TrimLeft (String " " t) blanks)
    with (strings.TrimLeft t blanks).
  by rewrite Hl, Hr.
Qed.

Lemma Split_app_sep e s (sep : ascii) :
  strings.contains_byte e sep = false →
  strings.Split (e +:+ String sep s) sep = e :: strings.Split s sep.
Proof.
  induction e as [|c r IH].
  - intros _. change ("" +:+ String sep s) with (String sep s).
    simpl. by rewrite Ascii.eqb_refl.
  - simpl. rewrite Ascii.eqb_sym. intros [Hc Hr]%orb_false_elim.
    by rewrite Hc, (IH Hr).
Qed.

(** Splitting the joined tokens gives the tokens back, all but the first
    behind the space of the separator. *)
Lemma Split_Join e (rest : list string) :
  Forall (λ t, strings.contains_byte t "," = false) (e :: rest) →
  strings.Split (strings.Join (e :: rest) ", ") ","
  = e :: (String " " <$> rest).
Proof.
  revert e. induction rest as [|e2 rest IH]; intros e Hall.
  - simpl. apply Split_no_sep. by apply Forall_inv in Hall.
  - apply Forall_cons in Hall as [He Hrest].
    change (strings.Join (e :: e2 :: rest) ", ")
      with (e +:+ String "," (String " " (strings.Join (e2 :: rest) ", "))).
    rewrite (Split_app_sep e _ "," He).
    change (strings.Split (String " " (strings.Join (e2 :: rest) ", ")) ",")
      with (match strings.Split (strings.Join (e2 :: rest) ", ") "," with
            | piece :: pieces => String " " piece :: pieces
            | [] => [String " " EmptyString]
            end).
    by rewrite (IH e2 Hrest).
Qed.

Lemma parsedFlag_of_Split_Join (tokens : list string) :
  tokens ≠ [] →
  Forall (λ t, normal_token t ∧ strings.contains_byte t "," = false) tokens →
  parsedFlag_of <$> strings.Split (strings.Join tokens ", ") "," = tokens.
Proof.
  destruct tokens as [|e rest]; [done|]. intros _ Hall.
  rewrite Split_Join by (eapply Forall_impl; [exact Hall|]; naive_solver).
  apply Forall_cons in Hall as [[He _] Hrest].
  rewrite fmap_cons, (parsedFlag_of_normal e He). f_equal.
  rewrite <-list_fmap_compose.
  induction Hrest as [|t rest' [Ht _] _ IH]; [done|].
  rewrite fmap_cons. simpl. by rewrite (parsedFlag_of_space t Ht), IH.
Qed.

(** The parsing loop on an allocated map, as a fold over the parsed
    flags. *)
Lemma parse_flags_alloc fs (tokens : list string) :
  is_Some (flags fs) →
  parse_flags fs tokens
  = Return (fold_left parsed_step (parsedFlag_of <$> tokens) fs).
Proof.
  revert fs. induction tokens as [|t rest IH]; intros fs [g Hg]; [done|].
  simpl. rewrite (parse_flag_alloc fs g t Hg). simpl.
  rewrite IH by (by eexists). do 2 f_equal.
  unfold parsed_step. by rewrite Hg.
Qed.

Lemma plain_flag_spec k :
  plain_flag k = true →
  normal_token k ∧ strings.contains_byte k "," = false ∧
  strings.HasPrefix k "-" = false.
Proof.
  unfold plain_flag, normal_token.
  rewrite !andb_true_iff, !negb_true_iff, !String.eqb_eq. naive_solver.
Qed.

Lemma dash_token_normal k :
  normal_token k → normal_token (String "-" k).
Proof.
  intros (Hup & Hl & Hr). repeat split.
  - simpl. by rewrite Hup.
  - simpl. rewrite Hr. by destruct k.
Qed.

End RoundTripFacts.

Section RoundTrip.

Variable efs : FlagSet.
Variable order : list (string * bool).
Hypothesis Horder : range_order (flags efs) order.
Hypothesis Hentries :
  ∀ (k : string) (v : bool),
    map_index (flags efs) k = Some v → round_trip_entry efs k v = true.

Local Lemma entry_plain (k : string) (v : bool) :
  map_index (flags efs) k = Some v →
  plain_flag k = true ∧
  (k = FlagAll → all efs = true ∧ v = true) ∧
  (k = FlagNone → all efs = true ∨ v = false).
Proof.
  intros Hk. specialize (Hentries k v Hk). unfold round_trip_entry in Hentries.
  apply andb_true_iff in Hentries as [[Hp Ha]%andb_true_iff Hn].
  split; [done|]. split; intros ->; simpl in *.
  - by apply andb_true_iff in Ha.
  - apply orb_true_iff in Hn as [?|?%negb_true_iff]; auto.
Qed.

(** Every token [String] joins is its own parsed form and holds no
    comma. *)
Lemma flag_tokens_normal :
  Forall (λ t, normal_token t ∧ strings.contains_byte t "," = false)
         (flag_tokens efs order).
Proof.
  apply Forall_forall. intros t [[-> _]|(k & v & Hin & Hk & Hcase)]%elem_of_flag_tokens.
  - by repeat split.
  - apply (range_order_elem_of _ _ k v Horder) in Hin.
    destruct (entry_plain k v Hin) as [(Hnorm & Hcomma & Hdash)%plain_flag_spec _].
    destruct Hcase as [(_ & _ & ->)|[_ ->]]; [done|].
    rewrite dash_app. split; [by apply dash_token_normal|].
    simpl. by rewrite Hcomma.
Qed.

(** Parsing the token of an entry stores the entry and leaves the bits. *)
Lemma parsed_step_entry (fs : FlagSet) (g : gmap string bool)
    (k : string) (v : bool) :
  flags fs = Some g →
  (k, v) ∈ order →
  emitted efs (k, v) = true →
  parsed_step fs (if v then k else "-" +:+ k)
  = {| flags := Some (<[k:=v]> g); all := all fs; none := none fs |}.
Proof.
  intros Hg Hin Hem.
  apply (range_order_elem_of _ _ k v Horder) in Hin.
  destruct (entry_plain k v Hin)
    as ((Hnorm & Hcomma & Hdash)%plain_flag_spec & Hka & Hkn).
  unfold emitted in Hem. simpl in Hem.
  apply andb_true_iff in Hem as [Hk%bool_decide_eq_true Hv].
  unfold parsed_step. rewrite Hg. simpl.
  destruct v.
  - simpl in Hv. apply negb_true_iff in Hv.
    rewrite Hdash.
    apply String.eqb_neq in Hk as ->.
    assert (k ≠ FlagNone) as ->%String.eqb_neq; [|done].
    intros Hn. destruct (Hkn Hn); congruence.
  - rewrite dash_app. reflexivity.
Qed.

Lemma fold_parsed_step_entries (entries : list (string * bool))
    (fs : FlagSet) (g : gmap string bool) :
  flags fs = Some g →
  entries ⊆ order →
  fold_left parsed_step (entries ≫= entry_tokens efs) fs
  = {| flags :=
         Some (store_all g (filter (λ entry, emitted efs entry = true) entries));
       all := all fs; none := none fs |}.
Proof.
  revert fs g. induction entries as [|[k v] rest IH]; intros fs g Hg Hsub.
  - simpl. destruct fs as [m a n]. simpl in Hg. by rewrite Hg.
  - rewrite bind_cons, fold_left_app, entry_tokens_eq, filter_cons.
    assert (Hin : (k, v) ∈ order) by (apply Hsub; left).
    assert (Hrest : rest ⊆ order) by (intros x Hx; apply Hsub; by right).
    destruct (emitted efs (k, v)) eqn:Hem.
    + rewrite decide_True by done. cbn [fold_left].
      rewrite (parsed_step_entry fs g k v Hg Hin Hem).
      by rewrite (IH {| flags := Some (<[k:=v]> g); all := all fs;
                        none := none fs |} (<[k:=v]> g) eq_refl Hrest).
    + rewrite decide_False by done. cbn [fold_left]. by apply IH.
Qed.

(** The entry of [f] once the entries written were stored over [g0]. *)
Lemma lookup_store_emitted (g0 : gmap string bool) (f : string) :
  store_all g0 (filter (λ entry, emitted efs entry = true) order) !! f
  = match map_index (flags efs) f with
    | Some v => if emitted efs (f, v) then Some v else g0 !! f
    | None => g0 !! f
    end.
Proof.
  pose proof (range_order_NoDup _ _ Horder) as Hnd.
  assert (Hnd' : NoDup (filter (λ entry, emitted efs entry = true) order).*1).
  { apply (sublist_NoDup _ _ Hnd), fmap_sublist, sublist_filter. }
  assert (Hnotin : ∀ v0 : bool,
            (∀ v, (f, v) ∈ order → v = v0 ∧ emitted efs (f, v) = false) →
            f ∉ (filter (λ entry, emitted efs entry = true) order).*1).
  { intros v0 Huniq [[k v] [-> [Hem Hin]%list_elem_of_filter]]%list_elem_of_fmap.
    simpl in *. destruct (Huniq v Hin) as [_ Hem']. congruence. }
  destruct (map_index (flags efs) f) as [v|] eqn:Hf.
  - destruct (emitted efs (f, v)) eqn:Hem.
    + apply store_all_lookup_in; [done|].
      apply list_elem_of_filter. split; [done|].
      by apply (range_order_elem_of _ _ f v Horder).
    + apply store_all_lookup_notin, (Hnotin v). intros v' Hin.
      apply (range_order_elem_of _ _ f v' Horder) in Hin.
      assert (v' = v) as -> by congruence. done.
  - apply store_all_lookup_notin.
    intros [[k v] [-> [_ Hin]%list_elem_of_filter]]%list_elem_of_fmap.
    apply (range_order_elem_of _ _ _ v Horder) in Hin. simpl in *. congruence.
Qed.

End RoundTrip.

Lemma parsed_step_all_token :
  parsed_step {| flags := Some ∅; all := false; none := false |} FlagAll
  = {| flags := Some (<[FlagAll := true]> ∅); all := true; none := false |}.
Proof. reflexivity. Qed.

(** C3, as the code has it. For a set that does not have both bits set and
    whose entries, unless the none bit is set, each read back from their
    token ([round_trippable]), parsing what [String] returns, in whatever
    order the range visited the map, returns a set that gives every
    non-empty flag the verdict the original gives it. *)
Theorem String_round_trip (efs : FlagSet) (order : list (string * bool)) :
  range_order (flags efs) order →
  round_trippable efs →
  ∃ parsed,
    NewFlagSetFromCSV (FlagSet_String efs order) = Return parsed ∧
    ∀ f : string, f ≠ "" → IsEnabled parsed f = IsEnabled efs f.
Proof.
  intros Hord [Hboth Hent]. unfold FlagSet_String.
  destruct (none efs) eqn:Hnone.
  { (* the none bit: "none" parses to a set with the none bit alone *)
    exists {| flags := Some {[ "none" := true ]}; all := false; none := true |}.
    split; [vm_compute; reflexivity|]. intros f _.
    rewrite (IsEnabled_none_only efs) by auto.
    by apply IsEnabled_none_only. }
  specialize (Hent eq_refl).
  pose proof (entry_plain efs Hent) as Hplain.
  unfold NewFlagSetFromCSV. rewrite parse_flags_alloc by (by eexists).
  destruct (flag_tokens efs order) as [|e rest] eqn:Htokens.
  { (* no token at all: the empty string parses to the empty flag *)
    eexists. split; [reflexivity|]. intros f Hf.
    assert (Hno : ∀ t, t ∉ flag_tokens efs order).
    { intros t. rewrite Htokens. apply not_elem_of_nil. }
    assert (Hall : all efs = false).
    { destruct (all efs) eqn:Hall; [|done].
      destruct (Hno FlagAll). apply elem_of_flag_tokens. by left. }
    transitivity false.
    - rewrite IsEnabled_entries by done.
      change (default false
               ((<[parsedFlag_of "" := true]> (∅ : gmap string bool)) !! f)
              = false).
      rewrite lookup_insert_ne by (intros <-; by apply Hf).
      by rewrite lookup_empty.
    - symmetry. rewrite IsEnabled_entries by done.
      destruct (map_index (flags efs) f) as [[]|] eqn:Hfe; [|done..].
      destruct (Hno f). apply elem_of_flag_tokens. right. exists f, true.
      split; [by apply (range_order_elem_of _ _ f true Hord)|].
      split; [|by left].
      intros ->. destruct (Hplain _ _ Hfe) as (_ & Ha & _).
      destruct Ha; congruence. }
  rewrite <-Htokens.
  rewrite parsedFlag_of_Split_Join;
    [|rewrite Htokens; done|by apply flag_tokens_normal].
  rewrite flag_tokens_eq, fold_left_app.
  destruct (all efs) eqn:Hall.
  - (* the all bit: the token "all", then the entries disabled *)
    cbn [fold_left]. rewrite parsed_step_all_token.
    erewrite (fold_parsed_step_entries efs order Hord Hent order);
      [|reflexivity|done].
    eexists. split; [reflexivity|]. intros f _.
    rewrite !IsEnabled_all by done. f_equal. cbn [flags map_index].
    rewrite (lookup_store_emitted efs order Hord).
    apply bool_decide_ext.
    destruct (map_index (flags efs) f) as [v|] eqn:Hfe.
    + destruct (Hplain _ _ Hfe) as (_ & Ha & _).
      unfold emitted. cbn [fst snd]. rewrite Hall.
      destruct v; cbn [negb orb].
      * rewrite andb_false_r.
        destruct (decide (f = FlagAll)) as [->|Hne].
        -- by rewrite lookup_insert_eq.
        -- rewrite lookup_insert_ne by done. by rewrite lookup_empty.
      * rewrite andb_true_r. rewrite bool_decide_eq_true_2; [done|].
        intros Hf. by destruct (Ha Hf).
    + destruct (decide (f = FlagAll)) as [->|Hne].
      * by rewrite lookup_insert_eq.
      * rewrite lookup_insert_ne by done. by rewrite lookup_empty.
  - (* neither bit: one token per entry *)
    cbn [fold_left].
    erewrite (fold_parsed_step_entries efs order Hord Hent order);
      [|reflexivity|done].
    eexists. split; [reflexivity|]. intros f _.
    rewrite !IsEnabled_entries by done. cbn [flags map_index].
    rewrite (lookup_store_emitted efs order Hord).
    destruct (map_index (flags efs) f) as [v|] eqn:Hfe; [|by rewrite lookup_empty].
    destruct (Hplain _ _ Hfe) as (_ & Ha & _).
    unfold emitted. cbn [fst snd]. rewrite Hall, orb_true_r, andb_true_r.
    rewrite bool_decide_eq_true_2; [done|].
    intros Hf. destruct (Ha Hf). congruence.
Qed.

Lemma String_round_trip_witness :
  range_order (flags info_on) [("info", true)] ∧
  round_trippable info_on ∧
  ∃ parsed,
    NewFlagSetFromCSV (FlagSet_String info_on [("info", true)])
      = Return parsed ∧
    ∀ f : string, f ≠ "" → IsEnabled parsed f = IsEnabled info_on f.
Proof.
  assert (H1 : range_order (flags info_on) [("info", true)])
    by (vm_compute; reflexivity).
  assert (H2 : round_trippable info_on).
  { split; [discriminate|]. intros _ k v Hk. simpl in Hk.
    apply lookup_singleton_Some in Hk as [<- <-]. vm_compute. reflexivity. }
  split; [exact H1|]. split; [exact H2|].
  exact (String_round_trip info_on [("info", true)] H1 H2).
Defined.

(** C3 fails as stated. The set [NewFlagSet("ERROR")] builds enables
    ["ERROR"]; its [String] is ["ERROR"], which parses to a set that
    enables ["error"] and not ["ERROR"]. And the set parsed from
    ["all,none"] enables ["info"], while its [String], ["none"], parses to
    a set that does not. *)
Lemma String_round_trip_counterexample :
  (NewFlagSet ["ERROR"] = Return error_upper_on ∧
   range_order (flags error_upper_on) [("ERROR", true)] ∧
   FlagSet_String error_upper_on [("ERROR", true)] = "ERROR" ∧
   NewFlagSetFromCSV "ERROR" = Return error_lower_on ∧
   IsEnabled error_lower_on "ERROR" = false ∧
   IsEnabled error_upper_on "ERROR" = true) ∧
  (NewFlagSetFromCSV "all,none" = Return all_and_none ∧
   FlagSet_String all_and_none (map_entries (flags all_and_none)) = "none" ∧
   NewFlagSetFromCSV "none" = Return none_parsed ∧
   IsEnabled none_parsed "info" = false ∧
   IsEnabled all_and_none "info" = true).
Proof.
  split; repeat split; try (vm_compute; reflexivity).
Qed.

(** * Properties of Worker *)

Section WorkerFacts.

Context {Event World : Type}.
Implicit Types (s : System Event World) (c : config Event World).
Implicit Types (e : Event) (q : list Event) (th : thread).

(** [Process] returns, whatever the listener does, and touches neither the
    queue, nor the running flag, nor the listener. *)
Lemma Process_returns th e s :
  ∃ s', Process th e s = Return s' ∧
        Work (worker s') = Work (worker s) ∧
        IsRunning (worker s') = IsRunning (worker s) ∧
        Listener_of (worker s') = Listener_of (worker s) ∧
        calls s' = calls s ++
                   match Listener_of (worker s) with
                   | Some _ => [(th, e)]
                   | None => []
                   end.
Proof.
  unfold Process, call_listener.
  destruct (Listener_of (worker s)) as [listener|] eqn:Hl.
  - destruct (listener e (world s)) as [σ [|[r|]]];
      unfold Process_deferred; simpl;
      try (destruct (Parent (worker s))); eexists; (split; [reflexivity|]);
      simpl; by repeat split.
  - unfold Process_deferred; simpl.
    destruct (Parent (worker s)); eexists; (split; [reflexivity|]);
      simpl; rewrite ?app_nil_r; by repeat split.
Qed.

Lemma Process_inv th e s s' :
  Process th e s = Return s' →
  Work (worker s') = Work (worker s) ∧
  IsRunning (worker s') = IsRunning (worker s) ∧
  Listener_of (worker s') = Listener_of (worker s) ∧
  calls s' = calls s ++ match Listener_of (worker s) with
                        | Some _ => [(th, e)]
                        | None => []
                        end.
Proof.
  intros Hp. destruct (Process_returns th e s) as (s'' & Hp' & Hrest).
  rewrite Hp in Hp'. by injection Hp' as <-.
Qed.

(** A panic of the listener: the value reaches the parent when there is a
    parent and the value is not nil. *)
Lemma Process_panic th e s (listener : Listener Event World) (σ : World)
    (r : panic_value) :
  Listener_of (worker s) = Some listener →
  listener e (world s) = (σ, Panicked r) →
  ∃ s', Process th e s = Return s' ∧
        world s' = σ ∧
        Parent (worker s') =
          match Parent (worker s), r with
          | Some parent, Some v => Some (SyncFatalf parent "%v" v)
          | parent, _ => parent
          end.
Proof.
  intros Hl Hcall. unfold Process, call_listener. rewrite Hl, Hcall.
  unfold Process_deferred. simpl.
  destruct r as [v|], (Parent (worker s)) as [parent|] eqn:Hp;
    eexists; (split; [reflexivity|]); simpl; by rewrite ?Hp.
Qed.

(** Left alone, the loop goroutine works the whole queue off. *)
Lemma loop_works_queue_off q s (lc : drain_pc) (listener : Listener Event World) :
  Listener_of (worker s) = Some listener →
  IsRunning (worker s) = true →
  Work (worker s) = q →
  ∃ s', steps (mkConfig s LoopSelecting lc) (mkConfig s' LoopSelecting lc) ∧
        Work (worker s') = [] ∧
        IsRunning (worker s') = true ∧
        Listener_of (worker s') = Some listener ∧
        calls s' = calls s ++ calls_by LoopThread q.
Proof.
  revert s. induction q as [|e q IH]; intros s Hl Hrun Hq.
  - exists s. split; [apply rtc_refl|]. simpl. by rewrite app_nil_r.
  - destruct (Process_returns LoopThread e (set_Work q s))
      as (s1 & Hp & Hw & Hr & Hl1 & Hc).
    simpl in Hw, Hr, Hl1, Hc. rewrite Hl in Hl1, Hc.
    destruct (IH s1) as (s' & Hsteps & Hw' & Hr' & Hl' & Hc');
      [congruence..|].
    exists s'. split; [|repeat split; try done].
    + eapply rtc_l; [by eapply loop_receive|].
      eapply rtc_l; [by eapply loop_process|]. exact Hsteps.
    + rewrite Hc', Hc. simpl. by rewrite <-app_assoc.
Qed.

End WorkerFacts.

(** C7, as the code has it. A panic of the listener inside [Process] is
    caught there: [Process] returns on either goroutine. With a parent and
    a panic value that is not nil, the parent receives one fatal report of
    the value; without a parent, or when the value is nil, nothing is
    reported. The loop goes on: it has taken the event off the queue and
    called [Process], it is back at its select with the running flag on,
    and an event enqueued afterwards reaches the listener. *)
Theorem Process_isolates_listener_panic {Event World : Type}
    (s : System Event World) (listener : Listener Event World)
    (e1 e2 : Event) (q : list Event) (σ : World) (r : panic_value)
    (lc : drain_pc) :
  Listener_of (worker s) = Some listener →
  listener e1 (world s) = (σ, Panicked r) →
  (∀ th, ∃ s', Process th e1 s = Return s' ∧
               world s' = σ ∧
               Parent (worker s') =
                 match Parent (worker s), r with
                 | Some parent, Some v => Some (SyncFatalf parent "%v" v)
                 | parent, _ => parent
                 end) ∧
  (IsRunning (worker s) = true →
   Work (worker s) = e1 :: q →
   (Z.of_nat (length q) < DefaultWorkerQueueDepth)%Z →
   ∃ s1 s2 s3,
     step (mkConfig s LoopSelecting lc)
          (mkConfig (set_Work q s) (LoopProcessing e1) lc) ∧
     step (mkConfig (set_Work q s) (LoopProcessing e1) lc)
          (mkConfig s1 LoopSelecting lc) ∧
     IsRunning (worker s1) = true ∧
     enqueue e2 s1 = Some s2 ∧
     steps (mkConfig s2 LoopSelecting lc) (mkConfig s3 LoopSelecting lc) ∧
     calls s3 = calls s ++ [(LoopThread, e1)] ++ calls_by LoopThread q
                        ++ [(LoopThread, e2)]).
Proof.
  intros Hl Hcall. split.
  - intros th. by apply (Process_panic th e1 s listener σ r).
  - intros Hrun Hwork Hroom.
    destruct (Process_returns LoopThread e1 (set_Work q s))
      as (s1 & Hp & Hw & Hr & Hl1 & Hc).
    simpl in Hw, Hr, Hl1, Hc. rewrite Hl in Hl1, Hc.
    assert (Henq : enqueue e2 s1 = Some (set_Work (q ++ [e2]) s1)).
    { unfold enqueue. rewrite Hw. by rewrite decide_True. }
    destruct (loop_works_queue_off (q ++ [e2]) (set_Work (q ++ [e2]) s1)
                lc listener) as (s3 & Hsteps & _ & _ & _ & Hc3);
      [simpl; congruence..|done|].
    exists s1, (set_Work (q ++ [e2]) s1), s3.
    split; [by eapply loop_receive|]. split; [by eapply loop_process|].
    split; [congruence|]. split; [done|]. split; [done|].
    rewrite Hc3. simpl. rewrite Hc. unfold calls_by.
    rewrite fmap_app. simpl. by rewrite <-!app_assoc.
Qed.

Lemma Process_isolates_listener_panic_witness :
  Listener_of (worker (sample_system boom_listener true [1]))
    = Some boom_listener ∧
  boom_listener 1 (world (sample_system boom_listener true [1]))
    = (tt, Panicked (Some "boom")) ∧
  (∀ th, ∃ s', Process th 1 (sample_system boom_listener true [1])
                 = Return s' ∧
               world s' = tt ∧
               Parent (worker s') =
                 Some (SyncFatalf {| fatal_reports := [] |} "%v" "boom")) ∧
  (IsRunning (worker (sample_system boom_listener true [1])) = true →
   Work (worker (sample_system boom_listener true [1])) = [1] →
   (Z.of_nat (length (@nil nat)) < DefaultWorkerQueueDepth)%Z →
   ∃ s1 s2 s3,
     step (mkConfig (sample_system boom_listener true [1])
                    LoopSelecting DrainReturned)
          (mkConfig (set_Work [] (sample_system boom_listener true [1]))
                    (LoopProcessing 1) DrainReturned) ∧
     step (mkConfig (set_Work [] (sample_system boom_listener true [1]))
                    (LoopProcessing 1) DrainReturned)
          (mkConfig s1 LoopSelecting DrainReturned) ∧
     IsRunning (worker s1) = true ∧
     enqueue 2 s1 = Some s2 ∧
     steps (mkConfig s2 LoopSelecting DrainReturned)
           (mkConfig s3 LoopSelecting DrainReturned) ∧
     calls s3 = calls (sample_system boom_listener true [1])
                ++ [(LoopThread, 1)] ++ calls_by LoopThread []
                ++ [(LoopThread, 2)]).
Proof.
  split; [reflexivity|]. split; [reflexivity|].
  exact (Process_isolates_listener_panic
           (sample_system boom_listener true [1]) boom_listener 1 2 [] tt
           (Some "boom") DrainReturned eq_refl eq_refl).
Defined.

(** C7 fails as stated: a listener that panics with the nil value is
    caught, and the configured parent receives no report. *)
Lemma Process_nil_panic_counterexample :
  Listener_of (worker (sample_system nil_panic_listener true [1]))
    = Some nil_panic_listener ∧
  nil_panic_listener 1 tt = (tt, Panicked None) ∧
  Parent (worker (sample_system nil_panic_listener true [1]))
    = Some {| fatal_reports := [] |} ∧
  Process LoopThread 1 (sample_system nil_panic_listener true [1])
    = Return {| worker := worker (sample_system nil_panic_listener true [1]);
                world := tt;
                calls := [(LoopThread, 1)] |}.
Proof. repeat split. Qed.

(** ** Draining *)

Section DrainFacts.

Context {Event World : Type}.
Implicit Types (s : System Event World) (c : config Event World).
Implicit Types (e : Event) (q : list Event).

Lemma stop_inv_start c0 : Drain_called c0 → stop_inv c0.
Proof.
  destruct c0 as [s lp lc]. intros [Hcaller Hloop]. simpl in *. subst lc.
  unfold stop_inv. simpl. split_and!; [|done..]. by destruct lp.
Qed.

Lemma stop_inv_step c c' : stop_inv c → step c c' → stop_inv c'.
Proof.
  intros (Hpcs & Hrecv & Hret) Hstep. unfold stop_inv in *.
  destruct Hstep as [s lc | s e q lc Hrun Hwork | s s' e lc Hp | s lc Hrun
                    | s Hrun | s lc | s | s lp Hrun | s lp Hrun
                    | s lp Hwork | s e q lp Hwork | s s' e lp Hp
                    | s lp Hwork]; simpl in *.
  - (* the start-up window is closed *)
    by destruct lc.
  - (* the loop goroutine receives an event *)
    rewrite Hrun in Hpcs. by destruct lc.
  - (* the loop goroutine calls Process *)
    apply Process_inv in Hp as (Hw & Hr & _). rewrite Hw, Hr.
    by destruct lc.
  - (* the loop condition fails: the flag is off only outside the loop *)
    rewrite Hrun in Hpcs. by destruct lc.
  - (* the abort signal passes *)
    done.
  - (* the loop goroutine clears the flag *)
    by destruct lc.
  - (* the acknowledgement passes *)
    done.
  - (* Stop returns at once *)
    rewrite Hrun in *. by destruct lp.
  - (* Stop goes on to send the abort signal *)
    rewrite Hrun in *. by destruct lp.
  - (* the queue has an event: the caller goes on to receive *)
    split_and!; try done; by destruct lp.
  - (* the caller receives an event *)
    split_and!; try done; by destruct lp.
  - (* the caller calls Process *)
    apply Process_inv in Hp as (Hw & Hr & _). rewrite Hw, Hr.
    split_and!; try done; by destruct lp.
  - (* the queue is empty: Drain returns *)
    split_and!; try done; by destruct lp.
Qed.

Lemma stop_inv_steps c0 c : Drain_called c0 → steps c0 c → stop_inv c.
Proof.
  intros Hcalled. revert c. apply (rtc_ind_r stop_inv c0).
  - by apply stop_inv_start.
  - intros c1 c2 _ Hstep IH. by eapply stop_inv_step.
Qed.

(** Once [Stop] has returned the loop goroutine is out of its loop. *)
Lemma stop_inv_returned c :
  stop_inv c → stop_returned (caller c) = true →
  IsRunning (worker (sys c)) = false ∧
  (loop c = LoopAbsent ∨ loop c = LoopExited).
Proof.
  destruct c as [s lp lc]. intros (Hpcs & _) Hret. simpl in *.
  destruct lc, lp; simpl in *; try done; auto.
Qed.

(** While the flag is on [Stop] has not returned. *)
Lemma stop_inv_waiting c :
  stop_inv c → IsRunning (worker (sys c)) = true →
  stop_returned (caller c) = false.
Proof.
  destruct c as [s lp lc]. intros (Hpcs & _) Hrun. simpl in *.
  rewrite Hrun in Hpcs. by destruct lc, lp.
Qed.

Lemma drain_inv_start c0 : Drain_called c0 → drain_inv c0 c0.
Proof.
  intros [Hcaller _]. exists [], [], []. rewrite Hcaller. simpl.
  by rewrite !app_nil_r.
Qed.

Lemma drain_inv_step c0 c c' (listener : Listener Event World) :
  Listener_of (worker (sys c0)) = Some listener →
  stop_inv c → drain_inv c0 c → step c c' → drain_inv c0 c'.
Proof.
  intros Hl0 Hinv (by_loop & by_caller & called & Hq & Hheld & Hcalls & Hl
                   & Hearly & Hidle) Hstep.
  destruct Hstep as [s lc | s e q lc Hrun Hwork | s s' e lc Hp | s lc Hrun
                    | s Hrun | s lc | s | s lp Hrun | s lp Hrun
                    | s lp Hwork | s e q lp Hwork | s s' e lp Hp
                    | s lp Hwork]; simpl in *.
  - (* the start-up window is closed *)
    destruct Hinv as [Hpcs _]. simpl in Hpcs. by destruct lc.
  - (* the loop goroutine receives an event *)
    pose proof (stop_inv_waiting _ Hinv Hrun) as Hlc. simpl in Hlc.
    assert (by_caller = []) as -> by auto.
    assert (caller_held lc = []) as Hnone by (by destruct lc).
    exists (by_loop ++ [e]), [], called. split_and!; simpl; try done.
    + rewrite Hq, Hnone, Hwork. simpl. by rewrite <-app_assoc.
    + rewrite app_assoc, Hheld. by rewrite app_nil_r.
    + intros Hoff. destruct (Hidle Hoff) as [_ Hoff']. congruence.
  - (* the loop goroutine calls Process *)
    assert (Hrun : IsRunning (worker s) = true).
    { destruct Hinv as [Hpcs _]. simpl in Hpcs. by destruct lc. }
    pose proof (stop_inv_waiting _ Hinv Hrun) as Hlc. simpl in Hlc.
    assert (by_caller = []) as -> by auto.
    apply Process_inv in Hp as (Hw & Hr & Hl' & Hc).
    rewrite Hl, Hl0 in Hc.
    exists by_loop, [], (called ++ [e]). split_and!; simpl; try done.
    + by rewrite Hw.
    + by rewrite app_nil_r.
    + rewrite Hc, Hcalls. unfold calls_by. rewrite fmap_app. simpl.
      by rewrite !app_nil_r, <-!app_assoc.
    + congruence.
    + intros Hoff. destruct (Hidle Hoff) as [_ Hoff']. congruence.
  - (* the loop condition fails: the flag is off only outside the loop *)
    destruct Hinv as [Hpcs _]. simpl in Hpcs. rewrite Hrun in Hpcs.
    by destruct lc.
  - (* the abort signal passes *)
    exists by_loop, by_caller, called. by split_and!.
  - (* the loop goroutine clears the flag *)
    exists by_loop, by_caller, called. split_and!; simpl; try done.
    intros Hoff. by destruct (Hidle Hoff).
  - (* the acknowledgement passes *)
    exists by_loop, by_caller, called. by split_and!.
  - (* Stop returns at once *)
    exists by_loop, by_caller, called. by split_and!.
  - (* Stop goes on to send the abort signal *)
    exists by_loop, by_caller, called. by split_and!.
  - (* the queue has an event: the caller goes on to receive *)
    exists by_loop, by_caller, called. by split_and!.
  - (* the caller receives an event *)
    exists by_loop, by_caller, called. split_and!; simpl; try done.
    by rewrite Hq, Hwork.
  - (* the caller calls Process *)
    apply Process_inv in Hp as (Hw & Hr & Hl' & Hc).
    rewrite Hl, Hl0 in Hc.
    exists by_loop, (by_caller ++ [e]), called. split_and!; simpl; try done.
    + rewrite Hw, Hq. by rewrite <-!app_assoc.
    + rewrite Hc, Hcalls. unfold calls_by. rewrite fmap_app. simpl.
      by rewrite <-!app_assoc.
    + congruence.
    + by rewrite Hr.
  - (* the queue is empty: Drain returns *)
    exists by_loop, by_caller, called. by split_and!.
Qed.

Lemma drain_inv_steps c0 c (listener : Listener Event World) :
  Listener_of (worker (sys c0)) = Some listener →
  Drain_called c0 → steps c0 c → stop_inv c ∧ drain_inv c0 c.
Proof.
  intros Hl0 Hcalled. revert c.
  apply (rtc_ind_r (λ c, stop_inv c ∧ drain_inv c0 c) c0).
  - split; [by apply stop_inv_start|by apply drain_inv_start].
  - intros c1 c2 _ Hstep [Hinv IH]. split.
    + by eapply stop_inv_step.
    + by eapply drain_inv_step.
Qed.





End DrainFacts.




(** * Properties of TextWriter *)

Section TextWriterFacts.

Context {Time : Type}.
Variable time_Format : Time → string → string.
Variable time_Now_UTC : Time.
Variable Apply : string → string → string.
Variables ColorBlue ColorGray : string.
Variable GetFlagTextColor : string → string.
Variable pkg_ColorizeStatusCode : Z → string.
Variable pkg_ColorizeByStatusCode : Z → string → string.

Lemma string_app_assoc (s t u : string) : (s +:+ t) +:+ u = s +:+ t +:+ u.
Proof. induction s as [|c s IH]; [done|]. by rewrite !app_String, IH. Qed.

Lemma string_app_nil_l (s : string) : "" +:+ s = s.
Proof. reflexivity. Qed.

(** A buffer that ends with a byte is not empty: the flush is one
    [Write]. *)
Lemma WriteTo_nonempty (buf : string) (c : ascii) (w : Sink) :
  WriteTo (buf +:+ String c "") w = Sink_Write w (buf +:+ String c "").
Proof. by destruct buf. Qed.

(** Without colour, [Colorize] is the identity. *)
Lemma Colorize_plain (wr : TextWriter) (value color : string) :
  useColor wr = false → Colorize Apply wr value color = value.
Proof. unfold Colorize. by intros ->. Qed.

(** C9. With an empty label, the timestamp and the label switched on and
    colour switched off, [Write] hands the primary sink, in one chunk, the
    line made of the timestamp of the event in the time format of the
    writer (the default one when that is empty), a space, the flag in
    brackets, a space, the body and a newline; there is no label column.
    The body is what the custom renderer of the event writes, else what
    its [String] returns, else nothing. The error returned is that of the
    sink, and the scratch buffer is back in the pool. *)
Theorem Write_plain_line (wr : TextWriter) (e : Event Time)
    (text : TextFormatter → string) :
  label wr = "" →
  showTimestamp wr = true →
  showLabel wr = true →
  useColor wr = false →
  (∀ writeText, Event_WriteText e = Some writeText → appends writeText text) →
  let written :=
    Write time_Format time_Now_UTC Apply ColorBlue ColorGray GetFlagTextColor
          pkg_ColorizeStatusCode pkg_ColorizeByStatusCode wr e in
  received (output written.1) =
    received (output wr) ++
    [time_Format (Event_Timestamp e)
       (if (0 <? String.length (timeFormat wr))%nat then timeFormat wr
        else DefaultTextTimeFormat)
     +:+ " " +:+ "[" +:+ Event_Flag e +:+ "]" +:+ " "
     +:+ match Event_WriteText e with
         | Some _ =>
             text (formatter Apply pkg_ColorizeStatusCode
                             pkg_ColorizeByStatusCode wr)
         | None => default "" (Event_String e)
         end
     +:+ String RuneNewline ""] ∧
  written.2 = failure (output wr) ∧
  on_lease (bufferPool written.1) = on_lease (bufferPool wr).
Proof.
  intros Hlabel Hts Hshow Hcolor Hrender written. subst written.
  unfold Write, write, Output, BufferPool_Get, BufferPool_Put.
  rewrite Hts, Hshow, Hlabel.
  change (true && (0 <? String.length "")%nat) with false. cbv iota.
  unfold FormatTimestamp, FormatFlag, bracketed, WriteRune, WriteString.
  destruct (Event_FlagTextColor e) as [flagColor|];
    [destruct (0 <? String.length flagColor)%nat|];
    rewrite !(Colorize_plain wr) by done;
    (destruct (Event_WriteText e) as [writeText|] eqn:Hwt;
       [rewrite (Hrender writeText eq_refl) | destruct (Event_String e)]);
    rewrite WriteTo_nonempty; unfold Sink_Write; cbn [fst snd output bufferPool
      received failure on_lease pred default from_option id];
    (split_and!; [| reflexivity..]);
    do 2 f_equal; rewrite ?string_app_assoc; reflexivity.
Qed.

End TextWriterFacts.

Lemma Write_plain_line_witness :
  label sample_writer = "" ∧
  showTimestamp sample_writer = true ∧
  showLabel sample_writer = true ∧
  useColor sample_writer = false ∧
  (∀ writeText, Event_WriteText sample_event = Some writeText →
                appends writeText sample_text) ∧
  received (output sample_Write.1)
    = ["unix@7 [ping] up" +:+ String RuneNewline ""] ∧
  sample_Write.2 = None ∧
  on_lease (bufferPool sample_Write.1) = 0.
Proof.
  assert (H : ∀ writeText, Event_WriteText sample_event = Some writeText →
                           appends writeText sample_text).
  { intros writeText [= <-] f buf. reflexivity. }
  do 4 (split; [reflexivity|]). split; [exact H|].
  exact (Write_plain_line sample_time_Format 0 sample_Apply "blue" "gray"
           (λ _, "white") pretty (λ _ value, value)
           sample_writer sample_event sample_text
           eq_refl eq_refl eq_refl eq_refl H).
Defined.


(** * Further properties of FlagSet *)

Section FlagSetMore.

Implicit Types (efs other : FlagSet) (f flag key : string) (v : bool).
Implicit Types (g : gmap string bool) (order : list (string * bool)).

Lemma enable_each_alloc g (a : bool) (fs : list string) :
  enable_each {| flags := Some g; all := a; none := false |} fs
  = Return {| flags := Some (store_all g ((λ k, (k, true)) <$> fs));
              all := a; none := false |}.
Proof.
  revert g. induction fs as [|k rest IH]; intros g; [done|].
  simpl. apply IH.
Qed.

Lemma store_all_true_lookup g (fs : list string) f :
  store_all g ((λ k, (k, true)) <$> fs) !! f
  = if bool_decide (f ∈ fs) then Some true else g !! f.
Proof.
  revert g. induction fs as [|k rest IH]; intros g; [done|].
  rewrite fmap_cons. unfold store_all. cbn [fold_left fst snd].
  change (store_all (<[k:=true]> g) ((λ k, (k, true)) <$> rest) !! f
          = if bool_decide (f ∈ k :: rest) then Some true else g !! f).
  rewrite IH.
  destruct (bool_decide_reflect (f ∈ rest)) as [Hin|Hnin].
  - rewrite bool_decide_eq_true_2; [done|by right].
  - destruct (decide (f = k)) as [->|Hne].
    + rewrite bool_decide_eq_true_2 by left. apply lookup_insert_eq.
    + rewrite bool_decide_eq_false_2 by (by intros [?|?]%elem_of_cons).
      by apply lookup_insert_ne.
Qed.

End FlagSetMore.

(** X1. [NewFlagSet(flags...)] returns a set with neither bit set that
    enables exactly the flags it was given. *)
Theorem NewFlagSet_enables_exactly (fs : list string) :
  ∃ efs, NewFlagSet fs = Return efs ∧
         all efs = false ∧ none efs = false ∧
         ∀ f : string, IsEnabled efs f = bool_decide (f ∈ fs).
Proof.
  unfold NewFlagSet. rewrite enable_each_alloc.
  eexists. split; [reflexivity|]. split; [done|]. split; [done|].
  intros f. rewrite IsEnabled_entries by done. cbn [flags map_index].
  rewrite store_all_true_lookup, lookup_empty.
  by destruct (bool_decide (f ∈ fs)).
Qed.

(** X2. On a set whose map is allocated, [Enable(f)] returns and leaves [f]
    enabled whatever the bits were; every other flag gets the verdict of
    the set as it was with its none bit cleared (entries the none bit hid
    count again). *)
Theorem Enable_enables (efs : FlagSet) (f : string) :
  is_Some (flags efs) →
  ∃ efs', Enable efs f = Return efs' ∧
          IsEnabled efs' f = true ∧
          ∀ f' : string, f' ≠ f →
            IsEnabled efs' f'
            = IsEnabled {| flags := flags efs; all := all efs;
                           none := false |} f'.
Proof.
  intros [g Hg]. rewrite (Enable_alloc efs g f Hg).
  eexists. split; [reflexivity|]. split.
  - rewrite IsEnabled_unfold. cbn [flags all none map_index].
    rewrite lookup_insert_eq. by destruct (all efs).
  - intros f' Hne. rewrite !IsEnabled_unfold. cbn [flags all none map_index].
    rewrite lookup_insert_ne by done. by rewrite Hg.
Qed.

Lemma Enable_enables_witness :
  is_Some (flags none_parsed) ∧
  ∃ efs', Enable none_parsed "info" = Return efs' ∧
          IsEnabled efs' "info" = true ∧
          ∀ f' : string, f' ≠ "info" →
            IsEnabled efs' f'
            = IsEnabled {| flags := flags none_parsed; all := all none_parsed;
                           none := false |} f'.
Proof.
  assert (H : is_Some (flags none_parsed)) by (eexists; reflexivity).
  split; [exact H | exact (Enable_enables none_parsed "info" H)].
Defined.

(** X3. On a set whose map is allocated, [Disable(f)] returns and leaves
    [f] disabled whatever the bits were, and no other flag changes its
    verdict. *)
Theorem Disable_disables (efs : FlagSet) (f : string) :
  is_Some (flags efs) →
  ∃ efs', Disable efs f = Return efs' ∧
          IsEnabled efs' f = false ∧
          ∀ f' : string, f' ≠ f → IsEnabled efs' f' = IsEnabled efs f'.
Proof.
  intros [g Hg]. rewrite (Disable_alloc efs g f Hg).
  eexists. split; [reflexivity|]. split.
  - rewrite IsEnabled_unfold. cbn [flags all none map_index].
    rewrite lookup_insert_eq. by destruct (all efs), (none efs).
  - intros f' Hne. rewrite !IsEnabled_unfold. cbn [flags all none map_index].
    rewrite lookup_insert_ne by done. by rewrite Hg.
Qed.

Lemma Disable_disables_witness :
  is_Some (flags NewFlagSetAll) ∧
  ∃ efs', Disable NewFlagSetAll "debug" = Return efs' ∧
          IsEnabled efs' "debug" = false ∧
          ∀ f' : string, f' ≠ "debug" →
            IsEnabled efs' f' = IsEnabled NewFlagSetAll f'.
Proof.
  assert (H : is_Some (flags NewFlagSetAll)) by (eexists; reflexivity).
  split; [exact H | exact (Disable_disables NewFlagSetAll "debug" H)].
Defined.

(** X4. The zero value of the struct has the nil map: [Enable] and
    [Disable] panic on it (with a value that is not nil), and so does
    [CoalesceWith] as soon as the other set has an entry to store; with
    nothing to store [CoalesceWith] returns and merges the bits. Queries do
    not panic: [IsEnabled] answers the all bit. *)
Theorem nil_map_stores_panic (efs other : FlagSet) (f : string)
    (order : list (string * bool)) :
  flags efs = None →
  (∃ r, Enable efs f = Panics (Some r)) ∧
  (∃ r, Disable efs f = Panics (Some r)) ∧
  match order with
  | [] => CoalesceWith efs other order
          = Return {| flags := None; all := all other || all efs;
                      none := none other || none efs |}
  | _ :: _ => ∃ r, CoalesceWith efs other order = Panics (Some r)
  end ∧
  IsEnabled efs f = all efs.
Proof.
  intros Hnil. unfold Enable, Disable, CoalesceWith, IsEnabled.
  rewrite Hnil. split; [by eexists|]. split; [by eexists|]. split.
  - destruct (all other), (none other), order as [|[k v] rest];
      simpl; rewrite ?Hnil; by (reflexivity || eexists).
  - simpl. by destruct (all efs), (none efs).
Qed.

Lemma nil_map_stores_panic_witness :
  flags {| flags := None; all := false; none := false |} = None ∧
  (∃ r, Enable {| flags := None; all := false; none := false |} "info"
        = Panics (Some r)) ∧
  (∃ r, Disable {| flags := None; all := false; none := false |} "info"
        = Panics (Some r)) ∧
  (∃ r, CoalesceWith {| flags := None; all := false; none := false |}
                     info_on [("info", true)] = Panics (Some r)) ∧
  IsEnabled {| flags := None; all := false; none := false |} "info" = false.
Proof.
  split; [reflexivity|].
  exact (nil_map_stores_panic {| flags := None; all := false; none := false |}
           info_on "info" [("info", true)] eq_refl).
Defined.

(** X5. After [SetNone()] followed by [Enable(f)], on any set (the zero
    value too: [SetNone] allocates the map), exactly [f] is enabled. *)
Theorem SetNone_Enable_exactly (efs : FlagSet) (f : string) :
  ∃ efs', Enable (SetNone efs) f = Return efs' ∧
          ∀ f' : string, IsEnabled efs' f' = bool_decide (f' = f).
Proof.
  eexists. split; [reflexivity|]. intros f'.
  rewrite IsEnabled_entries by done. cbn [flags map_index].
  destruct (decide (f' = f)) as [->|Hne].
  - rewrite lookup_insert_eq. by rewrite bool_decide_eq_true_2.
  - rewrite lookup_insert_ne, lookup_empty by done.
    by rewrite bool_decide_eq_false_2.
Qed.

(** ** Merging, entry by entry *)

Section CoalesceMore.

Implicit Types (efs other : FlagSet) (f : string) (v : bool).
Implicit Types (g : gmap string bool) (order : list (string * bool)).

(** The map after a range over [m] was stored over [g], whatever the
    order. *)
Lemma store_all_range_lookup g (m : option (gmap string bool)) order f :
  range_order m order →
  store_all g order !! f
  = match map_index m f with
    | Some v => Some v
    | None => g !! f
    end.
Proof.
  intros Hord. destruct (map_index m f) as [v|] eqn:Hf.
  - apply store_all_lookup_in; [by eapply range_order_NoDup|].
    by apply (range_order_elem_of m order f v Hord).
  - apply store_all_lookup_notin. by eapply range_order_not_elem_of.
Qed.

Lemma store_all_own_range g order :
  range_order (Some g) order → store_all g order = g.
Proof.
  intros Hord. apply map_eq. intros f.
  rewrite (store_all_range_lookup g (Some g) order f Hord). simpl.
  by destruct (g !! f).
Qed.

End CoalesceMore.

(** X6. On a self whose map is allocated, [CoalesceWith] returns a set
    whose all bit and none bit are the disjunction of the two sets' bits
    (the operation sets bits and clears none), and whose entry for a flag
    is other's entry when other has one and self's entry otherwise. *)
Theorem CoalesceWith_entries (efs other : FlagSet)
    (order : list (string * bool)) :
  is_Some (flags efs) →
  range_order (flags other) order →
  ∃ merged, CoalesceWith efs other order = Return merged ∧
    all merged = all other || all efs ∧
    none merged = none other || none efs ∧
    ∀ f : string,
      map_index (flags merged) f
      = match map_index (flags other) f with
        | Some v => Some v
        | None => map_index (flags efs) f
        end.
Proof.
  intros [g Hg] Hord. rewrite (CoalesceWith_alloc efs other g order Hg).
  eexists. split; [reflexivity|]. split; [done|]. split; [done|].
  intros f. cbn [flags map_index].
  rewrite (store_all_range_lookup g (flags other) order f Hord).
  by rewrite Hg.
Qed.

Lemma CoalesceWith_entries_witness :
  is_Some (flags info_off) ∧
  range_order (flags info_on) [("info", true)] ∧
  ∃ merged, CoalesceWith info_off info_on [("info", true)] = Return merged ∧
    all merged = all info_on || all info_off ∧
    none merged = none info_on || none info_off ∧
    ∀ f : string,
      map_index (flags merged) f
      = match map_index (flags info_on) f with
        | Some v => Some v
        | None => map_index (flags info_off) f
        end.
Proof.
  assert (H1 : is_Some (flags info_off)) by (eexists; reflexivity).
  assert (H2 : range_order (flags info_on) [("info", true)])
    by (vm_compute; reflexivity).
  split; [exact H1|]. split; [exact H2|].
  exact (CoalesceWith_entries info_off info_on [("info", true)] H1 H2).
Defined.

(** X7. What [CoalesceWith] leaves does not depend on the order in which
    the range visits other's map. *)
Theorem CoalesceWith_any_order (efs other : FlagSet)
    (order order' : list (string * bool)) :
  is_Some (flags efs) →
  range_order (flags other) order →
  range_order (flags other) order' →
  CoalesceWith efs other order = CoalesceWith efs other order'.
Proof.
  intros [g Hg] Hord Hord'.
  rewrite !(CoalesceWith_alloc efs other g _ Hg). do 3 f_equal.
  apply map_eq. intros f.
  by rewrite (store_all_range_lookup g (flags other) order f Hord),
             (store_all_range_lookup g (flags other) order' f Hord').
Qed.

Lemma CoalesceWith_any_order_witness :
  is_Some (flags no_flags) ∧
  range_order (flags none_key_info) [("none", true); ("info", true)] ∧
  range_order (flags none_key_info) [("info", true); ("none", true)] ∧
  CoalesceWith no_flags none_key_info [("none", true); ("info", true)]
  = CoalesceWith no_flags none_key_info [("info", true); ("none", true)].
Proof.
  assert (H1 : is_Some (flags no_flags)) by (eexists; reflexivity).
  assert (H2 : range_order (flags none_key_info)
                 [("none", true); ("info", true)]).
  { unfold range_order. vm_compute.
    first [reflexivity | apply Permutation_swap]. }
  assert (H3 : range_order (flags none_key_info)
                 [("info", true); ("none", true)]).
  { unfold range_order. vm_compute.
    first [reflexivity | apply Permutation_swap]. }
  split; [exact H1|]. split; [exact H2|]. split; [exact H3|].
  exact (CoalesceWith_any_order no_flags none_key_info _ _ H1 H2 H3).
Defined.

(** X8. Merging is associative: with allocated maps, merging [c] into the
    merge of [b] into [a] leaves what merging into [a] the merge of [c]
    into [b] leaves. *)
Theorem CoalesceWith_assoc (a b c : FlagSet)
    (order_b order_c order_bc : list (string * bool)) :
  is_Some (flags a) →
  is_Some (flags b) →
  range_order (flags b) order_b →
  range_order (flags c) order_c →
  ∃ ab bc,
    CoalesceWith a b order_b = Return ab ∧
    CoalesceWith b c order_c = Return bc ∧
    (range_order (flags bc) order_bc →
     CoalesceWith ab c order_c = CoalesceWith a bc order_bc).
Proof.
  intros [ga Hga] [gb Hgb] Hb Hc.
  rewrite (CoalesceWith_alloc a b ga order_b Hga),
          (CoalesceWith_alloc b c gb order_c Hgb).
  eexists _, _. split; [reflexivity|]. split; [reflexivity|].
  intros Hbc.
  erewrite (CoalesceWith_alloc _ c); [|reflexivity].
  rewrite (CoalesceWith_alloc a _ ga order_bc Hga).
  cbn [flags all none] in *. f_equal. f_equal; [|by rewrite orb_assoc..].
  f_equal. apply map_eq. intros f.
  rewrite (store_all_range_lookup _ (flags c) order_c f Hc),
          (store_all_range_lookup _ (Some (store_all gb order_c)) order_bc f Hbc),
          (store_all_range_lookup _ (flags b) order_b f Hb).
  cbn [map_index].
  rewrite (store_all_range_lookup _ (flags c) order_c f Hc).
  rewrite Hgb. cbn [map_index].
  by destruct (map_index (flags c) f), (gb !! f).
Qed.

Lemma CoalesceWith_assoc_witness :
  is_Some (flags no_flags) ∧
  is_Some (flags info_off) ∧
  range_order (flags info_off) [("info", false)] ∧
  range_order (flags info_on) [("info", true)] ∧
  ∃ ab bc,
    CoalesceWith no_flags info_off [("info", false)] = Return ab ∧
    CoalesceWith info_off info_on [("info", true)] = Return bc ∧
    (range_order (flags bc) [("info", true)] →
     CoalesceWith ab info_on [("info", true)]
     = CoalesceWith no_flags bc [("info", true)]).
Proof.
  assert (H1 : is_Some (flags no_flags)) by (eexists; reflexivity).
  assert (H2 : is_Some (flags info_off)) by (eexists; reflexivity).
  assert (H3 : range_order (flags info_off) [("info", false)])
    by (vm_compute; reflexivity).
  assert (H4 : range_order (flags info_on) [("info", true)])
    by (vm_compute; reflexivity).
  split; [exact H1|]. split; [exact H2|]. split; [exact H3|].
  split; [exact H4|].
  exact (CoalesceWith_assoc no_flags info_off info_on _ _ _ H1 H2 H3 H4).
Defined.

(** X9. Merging a set into itself, or merging a set without bits and
    without entries into it, changes nothing. *)
Theorem CoalesceWith_nothing_new (efs : FlagSet)
    (order : list (string * bool)) :
  is_Some (flags efs) →
  range_order (flags efs) order →
  CoalesceWith efs efs order = Return efs ∧
  CoalesceWith efs {| flags := Some ∅; all := false; none := false |} []
  = Return efs.
Proof.
  intros [g Hg] Hord. destruct efs as [m a n]. simpl in Hg. subst m. split.
  - erewrite CoalesceWith_alloc; [|reflexivity]. cbn [flags all none].
    rewrite (store_all_own_range g order Hord).
    by rewrite !orb_diag.
  - erewrite CoalesceWith_alloc; [|reflexivity]. done.
Qed.

Lemma CoalesceWith_nothing_new_witness :
  is_Some (flags info_on) ∧
  range_order (flags info_on) [("info", true)] ∧
  CoalesceWith info_on info_on [("info", true)] = Return info_on ∧
  CoalesceWith info_on {| flags := Some ∅; all := false; none := false |} []
  = Return info_on.
Proof.
  assert (H1 : is_Some (flags info_on)) by (eexists; reflexivity).
  assert (H2 : range_order (flags info_on) [("info", true)])
    by (vm_compute; reflexivity).
  split; [exact H1|]. split; [exact H2|].
  exact (CoalesceWith_nothing_new info_on [("info", true)] H1 H2).
Defined.


(** ** Parsing, token by token *)

Section ParseMore.

Implicit Types (fs : FlagSet) (p k : string) (ps : list string).

Lemma parsed_step_entry_key fs p :
  map_index (flags (parsed_step fs p)) (entry_key p)
  = Some (negb (strings.HasPrefix p "-")).
Proof.
  unfold parsed_step, entry_key. cbn [flags map_index].
  destruct (strings.HasPrefix p "-"); apply lookup_insert_eq.
Qed.

Lemma parsed_step_other_key fs p k :
  is_Some (flags fs) →
  k ≠ entry_key p →
  map_index (flags (parsed_step fs p)) k = map_index (flags fs) k.
Proof.
  intros [g Hg] Hk. unfold parsed_step, entry_key in *.
  cbn [flags map_index]. rewrite Hg. cbn [default from_option id map_index].
  destruct (strings.HasPrefix p "-"); by rewrite lookup_insert_ne.
Qed.

Lemma fold_parsed_step_alloc ps fs :
  is_Some (flags fs) → is_Some (flags (fold_left parsed_step ps fs)).
Proof.
  revert fs. induction ps as [|p ps IH]; intros fs Hfs; [done|].
  simpl. apply IH. by eexists.
Qed.

Lemma fold_parsed_step_all ps fs :
  all (fold_left parsed_step ps fs)
  = existsb (λ p, String.eqb p FlagAll) ps || all fs.
Proof.
  revert fs. induction ps as [|p ps IH]; intros fs; [done|].
  simpl. rewrite IH. cbn [all parsed_step].
  by destruct (String.eqb p FlagAll), (existsb _ ps), (all fs).
Qed.

Lemma fold_parsed_step_none ps fs :
  none (fold_left parsed_step ps fs)
  = existsb (λ p, String.eqb p FlagNone) ps || none fs.
Proof.
  revert fs. induction ps as [|p ps IH]; intros fs; [done|].
  simpl. rewrite IH. cbn [none parsed_step].
  by destruct (String.eqb p FlagNone), (existsb _ ps), (none fs).
Qed.

Lemma fold_parsed_step_untouched ps fs k :
  is_Some (flags fs) →
  (∀ p, p ∈ ps → entry_key p ≠ k) →
  map_index (flags (fold_left parsed_step ps fs)) k = map_index (flags fs) k.
Proof.
  revert fs. induction ps as [|p ps IH]; intros fs Hfs Hk; [done|].
  simpl. rewrite IH.
  - apply parsed_step_other_key; [done|]. intros ->.
    apply (Hk p); [by left|done].
  - by eexists.
  - intros p' Hp'. apply Hk. by right.
Qed.

(** The last token stored under a key decides the entry. *)
Lemma fold_parsed_step_last ps1 p ps2 fs :
  is_Some (flags fs) →
  (∀ p', p' ∈ ps2 → entry_key p' ≠ entry_key p) →
  map_index (flags (fold_left parsed_step (ps1 ++ p :: ps2) fs)) (entry_key p)
  = Some (negb (strings.HasPrefix p "-")).
Proof.
  intros Hfs Hlast. rewrite fold_left_app. cbn [fold_left].
  rewrite fold_parsed_step_untouched; [|by eexists|done].
  apply parsed_step_entry_key.
Qed.

Lemma parsed_step_keeps fs p k :
  is_Some (map_index (flags fs) k) →
  is_Some (map_index (flags (parsed_step fs p)) k).
Proof.
  intros Hk. destruct (decide (k = entry_key p)) as [->|Hne].
  - rewrite parsed_step_entry_key. by eexists.
  - rewrite parsed_step_other_key; [done| |done].
    destruct (flags fs); [by eexists|by destruct Hk].
Qed.

Lemma fold_parsed_step_keeps ps fs k :
  is_Some (map_index (flags fs) k) →
  is_Some (map_index (flags (fold_left parsed_step ps fs)) k).
Proof.
  revert fs. induction ps as [|p ps IH]; intros fs Hk; [done|].
  simpl. by apply IH, parsed_step_keeps.
Qed.

Lemma fold_parsed_step_has_entry ps fs p :
  is_Some (flags fs) →
  p ∈ ps →
  is_Some (map_index (flags (fold_left parsed_step ps fs)) (entry_key p)).
Proof.
  revert fs. induction ps as [|p' ps IH]; intros fs Hfs Hp.
  - by apply elem_of_nil in Hp.
  - simpl. apply elem_of_cons in Hp as [->|Hp].
    + apply fold_parsed_step_keeps. rewrite parsed_step_entry_key.
      by eexists.
    + apply IH; [by eexists|done].
Qed.

Lemma lower_byte_idem (c : ascii) :
  strings.lower_byte (strings.lower_byte c) = strings.lower_byte c.
Proof. by destruct c as [[] [] [] [] [] [] [] []]. Qed.

Lemma lower_byte_comma (c : ascii) :
  Ascii.eqb (strings.lower_byte c) "," = Ascii.eqb c ",".
Proof. by destruct c as [[] [] [] [] [] [] [] []]. Qed.

Lemma ToLower_idem (s : string) :
  strings.ToLower (strings.ToLower s) = strings.ToLower s.
Proof.
  induction s as [|c r IH]; [done|]. simpl. by rewrite lower_byte_idem, IH.
Qed.

Lemma Split_ToLower (s : string) :
  strings.Split (strings.ToLower s) ","
  = strings.ToLower <$> strings.Split s ",".
Proof.
  induction s as [|c r IH]; [done|]. simpl.
  rewrite lower_byte_comma, IH.
  destruct (Ascii.eqb c ","); [done|].
  by destruct (strings.Split r ",").
Qed.

End ParseMore.

Lemma NewFlagSetFromCSV_returns (flagCSV : string) :
  ∃ efs, NewFlagSetFromCSV flagCSV = Return efs.
Proof.
  unfold NewFlagSetFromCSV. rewrite parse_flags_alloc by (by eexists).
  by eexists.
Qed.

(** X10. [NewFlagSetFromCSV] returns for every ASCII string (where
    [strings.ToLower] changes the letters 'A'..'Z' and nothing else), with
    an allocated map; the all bit (the none bit) is set exactly when some
    token, lower-cased and trimmed, is the all (none) sentinel; and the
    loop performs no validation: every token, the sentinels too, leaves an
    entry under its key. *)
Theorem NewFlagSetFromCSV_accepts_every_token (flagCSV : string) :
  ascii_only flagCSV = true →
  ∃ efs, NewFlagSetFromCSV flagCSV = Return efs ∧
    is_Some (flags efs) ∧
    all efs = existsb (λ t, String.eqb (parsedFlag_of t) FlagAll)
                      (strings.Split flagCSV ",") ∧
    none efs = existsb (λ t, String.eqb (parsedFlag_of t) FlagNone)
                       (strings.Split flagCSV ",") ∧
    ∀ t : string, t ∈ strings.Split flagCSV "," →
      is_Some (map_index (flags efs) (entry_key (parsedFlag_of t))).
Proof.
  intros _.
  unfold NewFlagSetFromCSV. rewrite parse_flags_alloc by (by eexists).
  eexists. split; [reflexivity|]. split_and!.
  - apply fold_parsed_step_alloc. by eexists.
  - rewrite fold_parsed_step_all. cbn [all]. rewrite orb_false_r.
    induction (strings.Split flagCSV ",") as [|t ts IH]; [done|].
    rewrite fmap_cons. simpl. by rewrite IH.
  - rewrite fold_parsed_step_none. cbn [none]. rewrite orb_false_r.
    induction (strings.Split flagCSV ",") as [|t ts IH]; [done|].
    rewrite fmap_cons. simpl. by rewrite IH.
  - intros t Ht. apply fold_parsed_step_has_entry; [by eexists|].
    by apply list_elem_of_fmap_2.
Qed.

Lemma NewFlagSetFromCSV_accepts_every_token_witness :
  ascii_only "ALL, -Error" = true ∧
  ∃ efs, NewFlagSetFromCSV "ALL, -Error" = Return efs ∧
    is_Some (flags efs) ∧
    all efs = existsb (λ t, String.eqb (parsedFlag_of t) FlagAll)
                      (strings.Split "ALL, -Error" ",") ∧
    none efs = existsb (λ t, String.eqb (parsedFlag_of t) FlagNone)
                       (strings.Split "ALL, -Error" ",") ∧
    ∀ t : string, t ∈ strings.Split "ALL, -Error" "," →
      is_Some (map_index (flags efs) (entry_key (parsedFlag_of t))).
Proof.
  assert (H : ascii_only "ALL, -Error" = true) by reflexivity.
  split; [exact H|].
  exact (NewFlagSetFromCSV_accepts_every_token "ALL, -Error" H).
Defined.

(** X11. On an ASCII string (where [strings.ToLower] changes the letters
    'A'..'Z' and nothing else) later tokens override earlier ones: the
    entry of a key is the one of the last token stored under that key,
    false when that token has a dash and true when it has none. *)
Theorem NewFlagSetFromCSV_last_token_wins (flagCSV : string)
    (before after : list string) (t : string) :
  ascii_only flagCSV = true →
  strings.Split flagCSV "," = before ++ t :: after →
  (∀ t' : string, t' ∈ after →
     entry_key (parsedFlag_of t') ≠ entry_key (parsedFlag_of t)) →
  ∃ efs, NewFlagSetFromCSV flagCSV = Return efs ∧
    map_index (flags efs) (entry_key (parsedFlag_of t))
    = Some (negb (strings.HasPrefix (parsedFlag_of t) "-")).
Proof.
  intros _ Hsplit Hlast.
  unfold NewFlagSetFromCSV. rewrite parse_flags_alloc by (by eexists).
  eexists. split; [reflexivity|].
  rewrite Hsplit, fmap_app, fmap_cons.
  apply fold_parsed_step_last; [by eexists|].
  intros p' [t' [-> Ht']]%list_elem_of_fmap. by apply Hlast.
Qed.

Lemma NewFlagSetFromCSV_last_token_wins_witness :
  ascii_only "error,all,-error" = true ∧
  strings.Split "error,all,-error" "," = ["error"; "all"] ++ "-error" :: [] ∧
  (∀ t' : string, t' ∈ @nil string →
     entry_key (parsedFlag_of t') ≠ entry_key (parsedFlag_of "-error")) ∧
  ∃ efs, NewFlagSetFromCSV "error,all,-error" = Return efs ∧
    map_index (flags efs) (entry_key (parsedFlag_of "-error"))
    = Some (negb (strings.HasPrefix (parsedFlag_of "-error") "-")).
Proof.
  assert (H1 : strings.Split "error,all,-error" ","
               = ["error"; "all"] ++ "-error" :: []) by reflexivity.
  assert (H2 : ∀ t' : string, t' ∈ @nil string →
            entry_key (parsedFlag_of t') ≠ entry_key (parsedFlag_of "-error")).
  { intros t' Ht'. by apply elem_of_nil in Ht'. }
  split; [reflexivity|]. split; [exact H1|]. split; [exact H2|].
  exact (NewFlagSetFromCSV_last_token_wins "error,all,-error"
           ["error"; "all"] [] "-error" eq_refl H1 H2).
Defined.

(** X12. The CSV is read without regard to case: on an ASCII string,
    lower-casing the whole string first changes nothing of what
    [NewFlagSetFromCSV] builds. *)
Theorem NewFlagSetFromCSV_case_insensitive (flagCSV : string) :
  ascii_only flagCSV = true →
  NewFlagSetFromCSV (strings.ToLower flagCSV) = NewFlagSetFromCSV flagCSV.
Proof.
  intros _. unfold NewFlagSetFromCSV.
  rewrite !parse_flags_alloc by (by eexists). do 2 f_equal.
  rewrite Split_ToLower, <-list_fmap_compose.
  apply list_fmap_ext. intros _ t _. unfold parsedFlag_of. simpl.
  by rewrite ToLower_idem.
Qed.

Lemma NewFlagSetFromCSV_case_insensitive_witness :
  ascii_only "All,-ERROR, Info" = true ∧
  NewFlagSetFromCSV (strings.ToLower "All,-ERROR, Info")
  = NewFlagSetFromCSV "All,-ERROR, Info".
Proof.
  assert (H : ascii_only "All,-ERROR, Info" = true) by reflexivity.
  split; [exact H | exact (NewFlagSetFromCSV_case_insensitive _ H)].
Defined.

(** X13. [NewFlagSetFromEnv] returns whatever the variable holds. When the
    variable is empty or unset the set enables no flag at all, the empty
    flag included, which the CSV constructor would enable on the empty
    string; otherwise it is the set the CSV constructor builds. *)
Theorem NewFlagSetFromEnv_cases (envEventsFlag : string) :
  (∃ efs, NewFlagSetFromEnv envEventsFlag = Return efs) ∧
  (envEventsFlag = "" →
   ∃ efs efs0, NewFlagSetFromEnv envEventsFlag = Return efs ∧
     (∀ f : string, IsEnabled efs f = false) ∧
     NewFlagSetFromCSV envEventsFlag = Return efs0 ∧
     IsEnabled efs0 "" = true) ∧
  (envEventsFlag ≠ "" →
   NewFlagSetFromEnv envEventsFlag = NewFlagSetFromCSV envEventsFlag).
Proof.
  split_and!.
  - unfold NewFlagSetFromEnv.
    destruct (0 <? String.length envEventsFlag)%nat.
    + destruct (NewFlagSetFromCSV_returns envEventsFlag)
        as [efs Hefs]. by exists efs.
    + by eexists.
  - intros ->. eexists _, _. split; [reflexivity|]. split; [done|].
    split; vm_compute; reflexivity.
  - intros Hne. unfold NewFlagSetFromEnv.
    by destruct envEventsFlag.
Qed.

(** X14. With the none bit unset, [String] is the tokens joined by
    [", "], and the tokens are: ["all"] exactly when the all bit is set;
    ["-key"] for every entry that is false; the bare key for every entry
    that is true, only while the all bit is unset; nothing for the key
    ["all"], and nothing else. *)
Theorem String_tokens (efs : FlagSet) (order : list (string * bool))
    (t : string) :
  range_order (flags efs) order →
  none efs = false →
  FlagSet_String efs order = strings.Join (flag_tokens efs order) ", " ∧
  (t ∈ flag_tokens efs order ↔
     (t = FlagAll ∧ all efs = true) ∨
     ∃ (k : string) (v : bool),
       map_index (flags efs) k = Some v ∧ k ≠ FlagAll ∧
       ((v = true ∧ all efs = false ∧ t = k) ∨
        (v = false ∧ t = "-" +:+ k))).
Proof.
  intros Hord Hnone. split.
  - unfold FlagSet_String. by rewrite Hnone.
  - rewrite elem_of_flag_tokens. split.
    + intros [?|(k & v & Hin & ?)]; [by left|]. right. exists k, v.
      split; [|done]. by apply (range_order_elem_of _ _ k v Hord).
    + intros [?|(k & v & Hin & ?)]; [by left|]. right. exists k, v.
      split; [|done]. by apply (range_order_elem_of _ _ k v Hord).
Qed.

Lemma String_tokens_witness :
  range_order (flags all_minus_error) [("error", false); ("all", true)] ∧
  none all_minus_error = false ∧
  FlagSet_String all_minus_error [("error", false); ("all", true)]
  = strings.Join
      (flag_tokens all_minus_error [("error", false); ("all", true)]) ", " ∧
  ("-error" ∈ flag_tokens all_minus_error [("error", false); ("all", true)] ↔
     ("-error" = FlagAll ∧ all all_minus_error = true) ∨
     ∃ (k : string) (v : bool),
       map_index (flags all_minus_error) k = Some v ∧ k ≠ FlagAll ∧
       ((v = true ∧ all all_minus_error = false ∧ "-error" = k) ∨
        (v = false ∧ "-error" = "-" +:+ k))).
Proof.
  assert (H1 : range_order (flags all_minus_error)
                 [("error", false); ("all", true)]).
  { unfold range_order. vm_compute.
    first [reflexivity | apply Permutation_swap]. }
  split; [exact H1|]. split; [reflexivity|].
  exact (String_tokens all_minus_error _ "-error" H1 eq_refl).
Defined.


(** * Further properties of Worker *)

Section WorkerMore.

Context {Event World : Type}.
Implicit Types (s : System Event World) (c : config Event World).
Implicit Types (e : Event) (q : list Event) (th : thread).

Lemma snd_calls_by th q : snd <$> calls_by (Event := Event) th q = q.
Proof.
  unfold calls_by. induction q as [|e q IH]; [done|].
  rewrite !fmap_cons. simpl. by rewrite IH.
Qed.

(** Once [Stop] has returned, a step is a step of the caller. *)
Lemma caller_step c c' :
  stop_inv c → stop_returned (caller c) = true → step c c' →
  loop c' = loop c ∧ stop_returned (caller c') = true ∧
  ∃ events, calls (sys c') = calls (sys c) ++ calls_by CallerThread events.
Proof.
  intros Hinv Hret Hstep.
  destruct (stop_inv_returned c Hinv Hret) as [Hoff Hloop].
  destruct Hstep as [s lc | s e q lc Hrun Hwork | s s' e lc Hp | s lc Hrun
                    | s Hrun | s lc | s | s lp Hrun | s lp Hrun
                    | s lp Hwork | s e q lp Hwork | s s' e lp Hp
                    | s lp Hwork]; simpl in *;
    try (by destruct Hloop); try done.
  - split_and!; try done. exists []. by rewrite app_nil_r.
  - split_and!; try done. exists []. by rewrite app_nil_r.
  - apply Process_inv in Hp as (_ & _ & _ & Hc).
    split_and!; try done.
    destruct (Listener_of (worker s)).
    + by exists [e].
    + exists []. by rewrite Hc.
  - split_and!; try done. exists []. by rewrite app_nil_r.
Qed.

Lemma caller_steps c c' :
  stop_inv c → stop_returned (caller c) = true → steps c c' →
  stop_inv c' ∧ loop c' = loop c ∧ stop_returned (caller c') = true ∧
  ∃ events, calls (sys c') = calls (sys c) ++ calls_by CallerThread events.
Proof.
  intros Hinv Hret. revert c'.
  apply (rtc_ind_r
           (λ c', stop_inv c' ∧ loop c' = loop c ∧
                  stop_returned (caller c') = true ∧
                  ∃ events, calls (sys c')
                            = calls (sys c) ++ calls_by CallerThread events)
           c).
  - split_and!; try done. exists []. by rewrite app_nil_r.
  - intros c1 c2 _ Hstep (Hinv1 & Hloop1 & Hret1 & events & Hcalls).
    destruct (caller_step c1 c2 Hinv1 Hret1 Hstep)
      as (Hloop2 & Hret2 & more & Hcalls2).
    split_and!; [by eapply stop_inv_step|congruence|done|].
    exists (events ++ more). rewrite Hcalls2, Hcalls. unfold calls_by.
    by rewrite fmap_app, <-app_assoc.
Qed.

End WorkerMore.

(** X15. For a [Drain] called outside the start-up window and outside
    another [Stop] (the loop goroutine absent or gone with the running
    flag off, or in its loop with the flag on; no producer, [Start] or
    [Close] meanwhile): once [Stop] has returned, whether the worker has a
    listener or not, the running flag is off and the loop goroutine is
    absent or gone; from then on the loop goroutine stays where it is, the
    flag stays off, and every listener call made is made on the caller's
    thread. *)
Theorem Stop_silences_loop {Event World : Type}
    (c0 c : config Event World) :
  Drain_called c0 →
  steps c0 c →
  stop_returned (caller c) = true →
  IsRunning (worker (sys c)) = false ∧
  (loop c = LoopAbsent ∨ loop c = LoopExited) ∧
  ∀ c', steps c c' →
    loop c' = loop c ∧
    IsRunning (worker (sys c')) = false ∧
    stop_returned (caller c') = true ∧
    ∃ events : list Event,
      calls (sys c') = calls (sys c) ++ calls_by CallerThread events.
Proof.
  intros Hcalled Hsteps Hret.
  pose proof (stop_inv_steps c0 c Hcalled Hsteps) as Hinv.
  destruct (stop_inv_returned c Hinv Hret) as [Hoff Hloop].
  split; [done|]. split; [done|].
  intros c' Hlater.
  destruct (caller_steps c c' Hinv Hret Hlater)
    as (Hinv' & Hloop' & Hret' & events & Hcalls).
  destruct (stop_inv_returned c' Hinv' Hret') as [Hoff' _].
  split_and!; try done. by exists events.
Qed.

Lemma Stop_silences_loop_witness :
  Drain_called drain_running ∧
  steps drain_running drained_by_loop ∧
  stop_returned (caller drained_by_loop) = true ∧
  IsRunning (worker (sys drained_by_loop)) = false ∧
  (loop drained_by_loop = LoopAbsent ∨ loop drained_by_loop = LoopExited) ∧
  ∀ c', steps drained_by_loop c' →
    loop c' = loop drained_by_loop ∧
    IsRunning (worker (sys c')) = false ∧
    stop_returned (caller c') = true ∧
    ∃ events : list nat,
      calls (sys c') = calls (sys drained_by_loop)
                       ++ calls_by CallerThread events.
Proof.
  assert (H1 : Drain_called drain_running) by (split; reflexivity).
  assert (H2 : steps drain_running drained_by_loop).
  { unfold drain_running, drained_by_loop.
    eapply rtc_l; [by apply stop_running|].
    eapply rtc_l; [by eapply loop_receive|].
    eapply rtc_l; [by eapply loop_process|].
    eapply rtc_l; [by apply abort_rendezvous|].
    eapply rtc_l; [apply loop_clear|].
    eapply rtc_l; [apply aborted_rendezvous|].
    eapply rtc_l; [by apply drain_done|].
    apply rtc_refl. }
  split; [exact H1|]. split; [exact H2|]. split; [reflexivity|].
  exact (Stop_silences_loop drain_running drained_by_loop H1 H2 eq_refl).
Defined.

(** X16. For a [Drain] called outside the start-up window and outside
    another [Stop], on a worker with a listener (no producer, [Start] or
    [Close] meanwhile): at every point of the run at most one goroutine
    holds an event it has taken off the queue, and no event is lost,
    handled twice or out of order: the event the loop goroutine held at
    the call followed by the queue at the call is the events of the
    listener calls made since, in the order of the calls, followed by the
    event a goroutine holds and by the events still queued. *)
Theorem events_handled_in_queue_order {Event World : Type}
    (c0 c : config Event World) (listener : Listener Event World) :
  Drain_called c0 →
  Listener_of (worker (sys c0)) = Some listener →
  steps c0 c →
  (loop_held (loop c) = [] ∨ caller_held (caller c) = []) ∧
  ∃ made : list (thread * Event),
    calls (sys c) = calls (sys c0) ++ made ∧
    loop_held (loop c0) ++ Work (worker (sys c0))
    = (snd <$> made) ++ loop_held (loop c) ++ caller_held (caller c)
                     ++ Work (worker (sys c)).
Proof.
  intros Hcalled Hl Hsteps.
  destruct (drain_inv_steps c0 c listener Hl Hcalled Hsteps)
    as [Hinv (by_loop & by_caller & called & Hq & Hheld & Hcalls & _
              & Hearly & _)].
  assert (Hone : (loop_held (loop c) = [] ∧ stop_returned (caller c) = true)
                 ∨ (caller_held (caller c) = [] ∧ by_caller = [])).
  { destruct (stop_returned (caller c)) eqn:Hret.
    - left. split; [|done].
      destruct (stop_inv_returned c Hinv Hret) as [_ [-> | ->]]; done.
    - right. split; [|auto]. by destruct (caller c). }
  split; [destruct Hone as [[? _]|[? _]]; auto|].
  exists (calls_by LoopThread called ++ calls_by CallerThread by_caller).
  split; [done|].
  rewrite fmap_app, !snd_calls_by, Hq, app_assoc, Hheld.
  destruct Hone as [[-> _]|[-> ->]]; simpl;
    by rewrite ?app_nil_r, <-?app_assoc.
Qed.

Lemma events_handled_in_queue_order_witness :
  Drain_called drain_running ∧
  Listener_of (worker (sys drain_running)) = Some quiet_listener ∧
  steps drain_running drained_by_loop ∧
  (loop_held (loop drained_by_loop) = [] ∨
   caller_held (caller drained_by_loop) = []) ∧
  ∃ made : list (thread * nat),
    calls (sys drained_by_loop) = calls (sys drain_running) ++ made ∧
    loop_held (loop drain_running) ++ Work (worker (sys drain_running))
    = (snd <$> made) ++ loop_held (loop drained_by_loop)
                     ++ caller_held (caller drained_by_loop)
                     ++ Work (worker (sys drained_by_loop)).
Proof.
  assert (H1 : Drain_called drain_running) by (split; reflexivity).
  assert (H2 : steps drain_running drained_by_loop).
  { unfold drain_running, drained_by_loop.
    eapply rtc_l; [by apply stop_running|].
    eapply rtc_l; [by eapply loop_receive|].
    eapply rtc_l; [by eapply loop_process|].
    eapply rtc_l; [by apply abort_rendezvous|].
    eapply rtc_l; [apply loop_clear|].
    eapply rtc_l; [apply aborted_rendezvous|].
    eapply rtc_l; [by apply drain_done|].
    apply rtc_refl. }
  split; [exact H1|]. split; [reflexivity|]. split; [exact H2|].
  exact (events_handled_in_queue_order drain_running drained_by_loop
           quiet_listener H1 eq_refl H2).
Defined.

(** X25. The start-up window. [Start] only launches the goroutine, and
    the goroutine sets the running flag itself; a [Drain] called in
    between, on a worker with a listener and at least two events queued,
    finds the flag off, so [Stop] returns at once and both goroutines take
    events. Among the runs: [Drain] returns with the worker running and
    every event handled on the loop goroutine; the listener is called for
    the second event, on the caller's thread, before it is called for the
    first, on the loop goroutine; and the caller, past its test of the
    queue length, blocks in its receive on the queue the loop goroutine
    has emptied, with no step left to either goroutine. *)
Theorem Start_Drain_race {Event World : Type}
    (s : System Event World) (listener : Listener Event World)
    (e1 e2 : Event) (q : list Event) :
  Listener_of (worker s) = Some listener →
  IsRunning (worker s) = false →
  Work (worker s) = e1 :: e2 :: q →
  (∃ c, steps (Start (mkConfig s LoopAbsent DrainCalled)) c ∧
        caller c = DrainReturned ∧
        IsRunning (worker (sys c)) = true ∧
        loop c = LoopSelecting ∧
        calls (sys c) = calls s ++ calls_by LoopThread (e1 :: e2 :: q)) ∧
  (∃ c, steps (Start (mkConfig s LoopAbsent DrainCalled)) c ∧
        calls (sys c) = calls s ++ [(CallerThread, e2); (LoopThread, e1)]) ∧
  (∃ c, steps (Start (mkConfig s LoopAbsent DrainCalled)) c ∧
        caller c = DrainReceiving ∧
        Work (worker (sys c)) = [] ∧
        ∀ c', ¬ step c c').
Proof.
  intros Hl Hoff Hwork. unfold Start. simpl. split_and!.
  - destruct (loop_works_queue_off (e1 :: e2 :: q) (set_IsRunning true s)
                Draining listener) as (s' & Hsteps & Hw & Hr & _ & Hc);
      [done..|].
    exists (mkConfig s' LoopSelecting DrainReturned). split_and!; try done.
    eapply rtc_l; [by apply stop_not_running|].
    eapply rtc_l; [apply loop_start|].
    eapply rtc_r; [exact Hsteps|]. by apply drain_done.
  - destruct (Process_returns CallerThread e2
                (set_Work q (set_Work (e2 :: q) (set_IsRunning true s))))
      as (s1 & Hp1 & Hw1 & Hr1 & Hl1 & Hc1).
    destruct (Process_returns LoopThread e1 s1)
      as (s2 & Hp2 & Hw2 & Hr2 & Hl2 & Hc2).
    simpl in Hl1, Hc1. rewrite Hl in Hl1, Hc1. rewrite Hl1 in Hc2.
    exists (mkConfig s2 LoopSelecting Draining). split.
    + eapply rtc_l; [by apply stop_not_running|].
      eapply rtc_l; [apply loop_start|].
      eapply rtc_l; [by eapply loop_receive|].
      eapply rtc_l; [by apply drain_more|].
      eapply rtc_l; [by eapply drain_receive|].
      eapply rtc_l; [by eapply drain_process|].
      apply rtc_once. by eapply loop_process.
    + simpl. rewrite Hc2, Hc1. by rewrite <-app_assoc.
  - destruct (loop_works_queue_off (e1 :: e2 :: q) (set_IsRunning true s)
                DrainReceiving listener) as (s' & Hsteps & Hw & Hr & _);
      [done..|].
    exists (mkConfig s' LoopSelecting DrainReceiving).
    split_and!; try done.
    + eapply rtc_l; [by apply stop_not_running|].
      eapply rtc_l; [apply drain_more; by rewrite Hwork|].
      eapply rtc_l; [apply loop_start|]. exact Hsteps.
    + intros c' Hstep. inversion Hstep; subst; congruence.
Qed.

Lemma Start_Drain_race_witness :
  Listener_of (worker (sample_system quiet_listener false [1; 2]))
    = Some quiet_listener ∧
  IsRunning (worker (sample_system quiet_listener false [1; 2])) = false ∧
  Work (worker (sample_system quiet_listener false [1; 2])) = [1; 2] ∧
  (∃ c, steps drain_starting c ∧
        caller c = DrainReturned ∧
        IsRunning (worker (sys c)) = true ∧
        loop c = LoopSelecting ∧
        calls (sys c) = [] ++ calls_by LoopThread [1; 2]) ∧
  (∃ c, steps drain_starting c ∧
        calls (sys c) = [] ++ [(CallerThread, 2); (LoopThread, 1)]) ∧
  (∃ c, steps drain_starting c ∧
        caller c = DrainReceiving ∧
        Work (worker (sys c)) = [] ∧
        ∀ c', ¬ step c c').
Proof.
  do 3 (split; [reflexivity|]).
  exact (Start_Drain_race (sample_system quiet_listener false [1; 2])
           quiet_listener 1 2 [] eq_refl eq_refl eq_refl).
Defined.

(** X17. [Process] on a worker whose listener is the nil func: the call
    panics with the nil-dereference error, the deferred function recovers
    it, and [Process] returns; the parent, when there is one, receives the
    error as a fatal report; no listener call is made and the queue is
    untouched. *)
Theorem Process_nil_listener {Event World : Type} (th : thread) (e : Event)
    (s : System Event World) :
  Listener_of (worker s) = None →
  ∃ s', Process th e s = Return s' ∧
        calls s' = calls s ∧
        world s' = world s ∧
        Work (worker s') = Work (worker s) ∧
        Parent (worker s')
        = (λ parent,
             SyncFatalf parent "%v"
               "runtime error: invalid memory address or nil pointer dereference")
          <$> Parent (worker s).
Proof.
  intros Hl. unfold Process, call_listener. rewrite Hl.
  unfold Process_deferred. simpl.
  destruct (Parent (worker s)) as [parent|] eqn:Hp;
    eexists; (split; [reflexivity|]); simpl; by rewrite ?Hp.
Qed.

Lemma Process_nil_listener_witness :
  Listener_of (worker no_listener_system) = None ∧
  ∃ s', Process LoopThread 1 no_listener_system = Return s' ∧
        calls s' = [] ∧
        world s' = tt ∧
        Work (worker s') = [] ∧
        Parent (worker s')
        = Some {| fatal_reports :=
                    ["runtime error: invalid memory address or nil pointer dereference"] |}.
Proof.
  split; [reflexivity|].
  exact (Process_nil_listener LoopThread 1 no_listener_system eq_refl).
Defined.

(** X18. [Close] on a stopped worker as [NewWorker] makes it, whatever is
    queued, returns the nil error and leaves the three channel fields nil:
    the events queued are out of reach ([len] of the queue is 0). A second
    [Close] panics, closing the nil channel, and so does a [Close] of a
    worker whose queue was closed already. *)
Theorem Close_once {Event : Type} (queued : list Event)
    (pending acks : list bool) :
  ∃ closed,
    Close_stopped {| ch_Abort := OpenChan pending;
                     ch_Aborted := OpenChan acks;
                     ch_Work := OpenChan queued;
                     ch_IsRunning := false |} = Return (closed, None) ∧
    ch_Work closed = NilChan ∧ ch_Abort closed = NilChan ∧
    ch_Aborted closed = NilChan ∧
    chan_len (ch_Work closed) = 0 ∧
    Close_stopped closed = Panics (Some "close of nil channel") ∧
    Close_stopped {| ch_Abort := OpenChan pending;
                     ch_Aborted := OpenChan acks;
                     ch_Work := ClosedChan queued;
                     ch_IsRunning := false |}
    = Panics (Some "close of closed channel").
Proof. eexists. by split_and!. Qed.


(** * Further properties of TextWriter *)

Section TextWriterMore.

Context {Time : Type}.
Variable time_Format : Time → string → string.
Variable time_Now_UTC : Time.
Variable Apply : string → string → string.
Variables ColorBlue ColorGray : string.
Variable GetFlagTextColor : string → string.
Variable pkg_ColorizeStatusCode : Z → string.
Variable pkg_ColorizeByStatusCode : Z → string → string.

Local Notation write' :=
  (write time_Format time_Now_UTC Apply ColorBlue ColorGray GetFlagTextColor
         pkg_ColorizeStatusCode pkg_ColorizeByStatusCode).
Local Notation Write' :=
  (Write time_Format time_Now_UTC Apply ColorBlue ColorGray GetFlagTextColor
         pkg_ColorizeStatusCode pkg_ColorizeByStatusCode).
Local Notation WriteError' :=
  (WriteError time_Format time_Now_UTC Apply ColorBlue ColorGray
              GetFlagTextColor pkg_ColorizeStatusCode
              pkg_ColorizeByStatusCode).
Local Notation formatter' :=
  (formatter Apply pkg_ColorizeStatusCode pkg_ColorizeByStatusCode).

(** Whatever the writer, the event and the sink: one flush of one chunk
    that ends with the newline and does not depend on the sink. *)
Lemma write_flushes_once (wr : TextWriter) (e : Event Time) :
  ∃ body : string, ∀ out : Sink,
    write' wr out e
    = ({| received := received out ++ [body +:+ String RuneNewline ""];
          failure := failure out |},
       {| on_lease := on_lease (bufferPool wr) |},
       failure out).
Proof.
  unfold write, BufferPool_Get, BufferPool_Put.
  match goal with
  | |- context [WriteTo (WriteRune ?buf RuneNewline) _] => exists buf
  end.
  intros out. unfold WriteRune at 1. by rewrite WriteTo_nonempty.
Qed.

(** The columns in front of the body. *)
Lemma write_line (wr : TextWriter) (e : Event Time) (out : Sink)
    (text : TextFormatter → string) :
  (∀ writeText, Event_WriteText e = Some writeText → appends writeText text) →
  received (write' wr out e).1.1
  = received out ++
    [(if showTimestamp wr
      then Colorize Apply wr
             (time_Format (Event_Timestamp e) (effective_timeFormat wr))
             ColorGray +:+ " "
      else "")
     +:+ (if showLabel wr && (0 <? String.length (label wr))%nat
          then "[" +:+ Colorize Apply wr (label wr) ColorBlue +:+ "] "
          else "")
     +:+ "[" +:+ Colorize Apply wr (Event_Flag e)
                   (flag_color GetFlagTextColor e) +:+ "] "
     +:+ match Event_WriteText e with
         | Some _ => text (formatter' wr)
         | None => default "" (Event_String e)
         end
     +:+ String RuneNewline ""].
Proof.
  intros Hrender.
  unfold write, BufferPool_Get, BufferPool_Put, flag_color,
    effective_timeFormat.
  unfold FormatTimestamp, FormatLabel, FormatFlag, bracketed, WriteRune,
    WriteString.
  destruct (showTimestamp wr);
    destruct (showLabel wr && (0 <? String.length (label wr))%nat);
    (destruct (Event_FlagTextColor e) as [flagColor|];
       [destruct (0 <? String.length flagColor)%nat|]);
    (destruct (Event_WriteText e) as [writeText|] eqn:Hwt;
       [rewrite (Hrender writeText eq_refl) | destruct (Event_String e)]);
    rewrite WriteTo_nonempty; unfold Sink_Write;
    cbn [fst snd received default from_option id];
    do 2 f_equal; rewrite ?string_app_assoc; reflexivity.
Qed.

End TextWriterMore.

Section TextWriterExtras.

Context {Time : Type}.
Variable time_Format : Time → string → string.
Variable time_Now_UTC : Time.
Variable Apply : string → string → string.
Variables ColorBlue ColorGray : string.
Variable GetFlagTextColor : string → string.
Variable pkg_ColorizeStatusCode : Z → string.
Variable pkg_ColorizeByStatusCode : Z → string → string.

Local Notation write' :=
  (write time_Format time_Now_UTC Apply ColorBlue ColorGray GetFlagTextColor
         pkg_ColorizeStatusCode pkg_ColorizeByStatusCode).
Local Notation Write' :=
  (Write time_Format time_Now_UTC Apply ColorBlue ColorGray GetFlagTextColor
         pkg_ColorizeStatusCode pkg_ColorizeByStatusCode).
Local Notation WriteError' :=
  (WriteError time_Format time_Now_UTC Apply ColorBlue ColorGray
              GetFlagTextColor pkg_ColorizeStatusCode
              pkg_ColorizeByStatusCode).
Local Notation formatter' :=
  (formatter Apply pkg_ColorizeStatusCode pkg_ColorizeByStatusCode).

(** X19. Whatever the configuration, the capabilities of the event (a
    custom renderer may do to the buffer what it likes) and the state of
    the sink, [Write] hands the primary sink exactly one chunk, which ends
    with the newline; it returns the error of the sink's write, puts the
    scratch buffer back in the pool on that path too, and changes nothing
    else of the writer. *)
Theorem Write_one_chunk (wr : TextWriter) (e : Event Time) :
  ∃ body : string,
    Write' wr e
    = ({| output :=
            {| received := received (output wr)
                           ++ [body +:+ String RuneNewline ""];
               failure := failure (output wr) |};
          errorOutput := errorOutput wr;
          showTimestamp := showTimestamp wr; showLabel := showLabel wr;
          useColor := useColor wr; timeFormat := timeFormat wr;
          label := label wr;
          bufferPool := {| on_lease := on_lease (bufferPool wr) |} |},
       failure (output wr)).
Proof.
  destruct (write_flushes_once time_Format time_Now_UTC Apply ColorBlue
              ColorGray GetFlagTextColor pkg_ColorizeStatusCode
              pkg_ColorizeByStatusCode wr e) as [body Hbody].
  exists body. unfold Write, Output. by rewrite Hbody.
Qed.

(** X20. A writer without an error sink, such as [NewTextWriter] makes,
    writes its errors to the primary sink: [WriteError] does exactly what
    [Write] does. *)
Theorem WriteError_without_error_sink (wr : TextWriter) (e : Event Time) :
  errorOutput wr = None →
  WriteError' wr e = Write' wr e.
Proof.
  intros Hnone. unfold WriteError, Write, ErrorOutput, Output.
  rewrite Hnone. reflexivity.
Qed.

(** X21. With an error sink set, [WriteError] hands that sink the very
    chunk [Write] hands the primary sink, returns that sink's error, and
    leaves the primary sink untouched. *)
Theorem WriteError_with_error_sink (wr : TextWriter) (e : Event Time)
    (err : Sink) :
  errorOutput wr = Some err →
  ∃ body : string,
    received (output (Write' wr e).1)
    = received (output wr) ++ [body +:+ String RuneNewline ""] ∧
    errorOutput (WriteError' wr e).1
    = Some {| received := received err ++ [body +:+ String RuneNewline ""];
              failure := failure err |} ∧
    output (WriteError' wr e).1 = output wr ∧
    (WriteError' wr e).2 = failure err.
Proof.
  intros Herr.
  destruct (write_flushes_once time_Format time_Now_UTC Apply ColorBlue
              ColorGray GetFlagTextColor pkg_ColorizeStatusCode
              pkg_ColorizeByStatusCode wr e) as [body Hbody].
  exists body. unfold WriteError, Write, ErrorOutput, Output.
  rewrite Herr, !Hbody. by split_and!.
Qed.

(** X22. The line [Write] hands the primary sink, for every configuration:
    the timestamp column (in gray, then a space) when show-timestamp is
    on; the label column (the label in brackets, in blue, then a space)
    when show-label is on and the label is not empty; the flag in
    brackets, in the colour the event provides when that is not empty and
    in the catalogue's otherwise, then a space; the body; the newline.
    Brackets, spaces and the body are not coloured by the writer, and with
    colour off no column is. A custom renderer is taken to append. *)
Theorem Write_line_format (wr : TextWriter) (e : Event Time)
    (text : TextFormatter → string) :
  (∀ writeText, Event_WriteText e = Some writeText → appends writeText text) →
  received (output (Write' wr e).1)
  = received (output wr) ++
    [(if showTimestamp wr
      then Colorize Apply wr
             (time_Format (Event_Timestamp e) (effective_timeFormat wr))
             ColorGray +:+ " "
      else "")
     +:+ (if showLabel wr && (0 <? String.length (label wr))%nat
          then "[" +:+ Colorize Apply wr (label wr) ColorBlue +:+ "] "
          else "")
     +:+ "[" +:+ Colorize Apply wr (Event_Flag e)
                   (flag_color GetFlagTextColor e) +:+ "] "
     +:+ match Event_WriteText e with
         | Some _ => text (formatter' wr)
         | None => default "" (Event_String e)
         end
     +:+ String RuneNewline ""].
Proof.
  intros Hrender.
  rewrite <-(write_line time_Format time_Now_UTC Apply ColorBlue ColorGray
               GetFlagTextColor pkg_ColorizeStatusCode
               pkg_ColorizeByStatusCode wr e (output wr) text Hrender).
  unfold Write, Output.
  by destruct (write' wr (output wr) e) as [[out pool] err].
Qed.

(** X23. A writer fresh from [NewTextWriter] with colour switched off
    writes the timestamp in RFC 3339, the flag and the body: its label is
    empty, so there is no label column although show-label is on. *)
Theorem NewTextWriter_plain_line (out : Sink) (e : Event Time)
    (text : TextFormatter → string) :
  (∀ writeText, Event_WriteText e = Some writeText → appends writeText text) →
  received (output (Write' (WithUseColor (NewTextWriter out) false) e).1)
  = received out ++
    [time_Format (Event_Timestamp e) DefaultTextTimeFormat
     +:+ " " +:+ "[" +:+ Event_Flag e +:+ "] "
     +:+ match Event_WriteText e with
         | Some _ =>
             text (formatter' (WithUseColor (NewTextWriter out) false))
         | None => default "" (Event_String e)
         end
     +:+ String RuneNewline ""].
Proof.
  intros Hrender.
  pose proof (write_line time_Format time_Now_UTC Apply ColorBlue ColorGray
                GetFlagTextColor pkg_ColorizeStatusCode
                pkg_ColorizeByStatusCode
                (WithUseColor (NewTextWriter out) false) e
                (NewInterlockedWriter out) text Hrender) as Hline.
  unfold Write, Output.
  change (output (WithUseColor (NewTextWriter out) false))
    with (NewInterlockedWriter out).
  destruct (write' _ (NewInterlockedWriter out) e) as [[out' pool] err].
  cbn [fst snd output] in *. rewrite Hline.
  unfold Colorize, effective_timeFormat, flag_color, NewInterlockedWriter.
  cbn [WithUseColor NewTextWriter useColor showTimestamp showLabel label
       timeFormat andb].
  change (0 <? String.length "")%nat with false.
  change (0 <? String.length DefaultTextTimeFormat)%nat with true.
  unfold DefaultTextWriterShowTimestamp, DefaultTextWriterShowLabel.
  cbn [andb]. cbv iota. do 2 f_equal. by rewrite string_app_assoc.
Qed.

(** X24. A [message] of the pinger has none of the optional capabilities:
    whatever the writer, the text line of a message made by [wrap] is the
    timestamp and label columns, the flag column [[ping]] in the
    catalogue's colour, a space and the newline; the body is empty, and
    neither the URL, nor the status, nor the error of the message is
    written. *)
Theorem message_text_line (wr : TextWriter) (now : Time) (url : string)
    (status : Z) (err : string) :
  received (output (Write' wr (message_event (wrap now url status err))).1)
  = received (output wr) ++
    [(if showTimestamp wr
      then Colorize Apply wr (time_Format now (effective_timeFormat wr))
             ColorGray +:+ " "
      else "")
     +:+ (if showLabel wr && (0 <? String.length (label wr))%nat
          then "[" +:+ Colorize Apply wr (label wr) ColorBlue +:+ "] "
          else "")
     +:+ "[" +:+ Colorize Apply wr "ping" (GetFlagTextColor "ping") +:+ "] "
     +:+ String RuneNewline ""].
Proof.
  pose proof (write_line time_Format time_Now_UTC Apply ColorBlue ColorGray
                GetFlagTextColor pkg_ColorizeStatusCode
                pkg_ColorizeByStatusCode wr
                (message_event (wrap now url status err)) (output wr)
                (λ _, "")) as Hline.
  unfold Write, Output.
  destruct (write' wr (output wr) _) as [[out' pool] err'].
  apply Hline. intros writeText Hwt. discriminate Hwt.
Qed.

End TextWriterExtras.

Lemma WriteError_without_error_sink_witness :
  errorOutput (NewTextWriter broken_sink) = None ∧
  WriteError sample_time_Format 0 sample_Apply "blue" "gray" (λ _, "white")
             pretty (λ _ value, value) (NewTextWriter broken_sink)
             sample_event
  = Write sample_time_Format 0 sample_Apply "blue" "gray" (λ _, "white")
          pretty (λ _ value, value) (NewTextWriter broken_sink) sample_event.
Proof.
  split; [reflexivity|].
  exact (WriteError_without_error_sink sample_time_Format 0 sample_Apply
           "blue" "gray" (λ _, "white") pretty (λ _ value, value)
           (NewTextWriter broken_sink) sample_event eq_refl).
Defined.

Lemma WriteError_with_error_sink_witness :
  errorOutput sample_writer_with_errors = Some broken_sink ∧
  ∃ body : string,
    received (output (Write sample_time_Format 0 sample_Apply "blue" "gray"
                            (λ _, "white") pretty (λ _ value, value)
                            sample_writer_with_errors sample_event).1)
    = received (output sample_writer_with_errors)
      ++ [body +:+ String RuneNewline ""] ∧
    errorOutput (WriteError sample_time_Format 0 sample_Apply "blue" "gray"
                            (λ _, "white") pretty (λ _ value, value)
                            sample_writer_with_errors sample_event).1
    = Some {| received := received broken_sink
                          ++ [body +:+ String RuneNewline ""];
              failure := failure broken_sink |} ∧
    output (WriteError sample_time_Format 0 sample_Apply "blue" "gray"
                       (λ _, "white") pretty (λ _ value, value)
                       sample_writer_with_errors sample_event).1
    = output sample_writer_with_errors ∧
    (WriteError sample_time_Format 0 sample_Apply "blue" "gray"
                (λ _, "white") pretty (λ _ value, value)
                sample_writer_with_errors sample_event).2
    = failure broken_sink.
Proof.
  split; [reflexivity|].
  exact (WriteError_with_error_sink sample_time_Format 0 sample_Apply
           "blue" "gray" (λ _, "white") pretty (λ _ value, value)
           sample_writer_with_errors sample_event broken_sink eq_refl).
Defined.

Lemma Write_line_format_witness :
  (∀ writeText, Event_WriteText sample_event = Some writeText →
                appends writeText sample_text) ∧
  received (output (Write sample_time_Format 0 sample_Apply "blue" "gray"
                          (λ _, "white") pretty (λ _ value, value)
                          (WithLabel (WithUseColor sample_writer true) "app")
                          sample_event).1)
  = ["grayunix@7 [blueapp] [whiteping] greenup" +:+ String RuneNewline ""].
Proof.
  assert (H : ∀ writeText, Event_WriteText sample_event = Some writeText →
                           appends writeText sample_text).
  { intros writeText [= <-] f buf. reflexivity. }
  split; [exact H|].
  exact (Write_line_format sample_time_Format 0 sample_Apply "blue" "gray"
           (λ _, "white") pretty (λ _ value, value)
           (WithLabel (WithUseColor sample_writer true) "app")
           sample_event sample_text H).
Defined.

Lemma NewTextWriter_plain_line_witness :
  (∀ writeText, Event_WriteText sample_event = Some writeText →
                appends writeText sample_text) ∧
  received (output (Write sample_time_Format 0 sample_Apply "blue" "gray"
                          (λ _, "white") pretty (λ _ value, value)
                          (WithUseColor (NewTextWriter broken_sink) false)
                          sample_event).1)
  = ["earlier";
     "2006-01-02T15:04:05Z07:00@7 [ping] up" +:+ String RuneNewline ""].
Proof.
  assert (H : ∀ writeText, Event_WriteText sample_event = Some writeText →
                           appends writeText sample_text).
  { intros writeText [= <-] f buf. reflexivity. }
  split; [exact H|].
  exact (NewTextWriter_plain_line sample_time_Format 0 sample_Apply "blue"
           "gray" (λ _, "white") pretty (λ _ value, value)
           broken_sink sample_event sample_text H).
Defined.
